(** * The ledger zipper (tools/zipper/main.go): model and properties

    The zipper takes two parsed ledger files, a master ([f1trs], [f1drs])
    and a source ([f2trs], [f2drs]), merges the directives, looks for the
    sync point of the source in the master, copies the common run from
    the master and then interleaves the two tails by date, with a
    tie-break on the "ID", "RID" and "FITID" keys.

    Go values are modelled as follows.
    - [int] is [Z]. Every integer of the program is a slice length or an
      index between -1 and the sum of the two lengths, far from the
      bounds of a 64-bit integer, so no wrap-around is written out.
    - a slice is a [list]; an index expression [s[i]] is [index s i],
      which panics outside [0 <= i < len s] as the Go runtime does.
    - [map[string]string] is [gmap string string]; the two-value lookup
      [v, ok := m[k]] is [map_get].
    - [time.Time] is the instant it denotes, a [Z]; [Before] and [After]
      are the strict orders on instants.
    - a Go [string] is a byte string, compared bytewise by [==] and [<]. *)

From Stdlib Require Import ZArith String List Lia Bool.
From stdpp Require Import gmap strings list sorting.

Local Open Scope string_scope.
Local Open Scope list_scope.
Local Open Scope Z_scope.

(** ** Data model *)

(** The fields of [ledger.Transaction] that main.go reads. *)
Record Transaction := mkTransaction {
  Date : Z;
  Code : string;
  KVPairs : gmap string string
}.

(** Modelled from the spec: the struct [ledger.Directive] is declared in
    the ledger package, outside tools/zipper. main.go puts directives in
    a slice of struct values ([[]ledger.Directive]), assigns the field
    [FoundBefore] and calls the method [Compare]; the spec describes a
    metadata declaration with a provenance field. The declaration itself
    is kept as one string. *)
Record Directive := mkDirective {
  Content : string;
  FoundBefore : Z
}.

(** ** Outcomes of Go code *)

Inductive result (A : Type) : Type :=
| Ok (x : A)
| Panic                 (* runtime error: index out of range *)
| Exit (msg : string)   (* fmt.Println(msg); os.Exit(1) *)
| OutOfFuel.            (* the model's loop bound was too small *)

Arguments Ok {A} x.
Arguments Panic {A}.
Arguments Exit {A} msg.
Arguments OutOfFuel {A}.

Definition bind {A B} (r : result A) (k : A -> result B) : result B :=
  match r with
  | Ok x => k x
  | Panic => Panic
  | Exit msg => Exit msg
  | OutOfFuel => OutOfFuel
  end.

Notation "'try' x := r 'in' k" := (bind r (fun x => k))
  (at level 10, x name, r at level 100, k at level 200).

(** [len(s)] *)
Definition len {A} (s : list A) : Z := Z.of_nat (length s).

(** [s[i]] *)
Definition index {A} (s : list A) (i : Z) : result A :=
  if i <? 0 then Panic
  else match s !! Z.to_nat i with
       | Some x => Ok x
       | None => Panic
       end.

(** [v, ok := m[key]]: the zero value and [false] when the key is absent *)
Definition map_get (m : gmap string string) (key : string) : string * bool :=
  match m !! key with
  | Some v => (v, true)
  | None => ("", false)
  end.

(** ** chooseAB (main.go, lines 196-224) *)

(** -1 == a, 0 == neither, 1 == b *)
Definition chooseAB (a b : gmap string string) (key : string) : Z :=
  let '(id1, ok1) := map_get a key in
  let '(id2, ok2) := map_get b key in
  if ok1 && negb ok2 then -1
  else if negb ok1 && ok2 then 1
  else if negb ok1 && negb ok2 then 0
  else if String.eqb id1 id2 then 0
  else if String.ltb id1 id2 then -1
  else 1.

(** ** Merging the directives (main.go, lines 66-80) *)

Section Directives.

(** [d2.Compare(d1)]: the method of [ledger.Directive], defined in the
    ledger package. The merge is modelled for any such predicate. *)
Variable Compare : Directive -> Directive -> bool.

(** The inner loop over [f1drs] (lines 71-75): [true] when it leaves
    through [continue outer]. *)
Fixpoint inner_loop (d2 : Directive) (f1drs : list Directive) : bool :=
  match f1drs with
  | [] => false
  | d1 :: rest => if Compare d2 d1 then true else inner_loop d2 rest
  end.

(** The loop labelled [outer] over [f2drs] (lines 70-77). *)
Fixpoint outer_loop (f1drs f2drs drs : list Directive) : list Directive :=
  match f2drs with
  | [] => drs
  | d2 :: rest =>
      if inner_loop d2 f1drs
      then outer_loop f1drs rest drs
      else outer_loop f1drs rest (drs ++ [d2])
  end.

(** Lines 67-77. *)
Definition merge_directives (f1drs f2drs : list Directive) : list Directive :=
  let drs : list Directive := [] in
  let drs := drs ++ f1drs in
  outer_loop f1drs f2drs drs.

(** What the specification says the merge returns. *)
Definition merge_directives_spec (a b : list Directive) : list Directive :=
  a ++ List.filter (fun d_b => forallb (fun d_a => negb (Compare d_b d_a)) a) b.

End Directives.

(** [d.FoundBefore = v], on a struct value [d]. *)
Definition set_FoundBefore (d : Directive) (v : Z) : Directive :=
  {| Content := Content d; FoundBefore := v |}.

(** The loop of lines 78-80, [for _, d := range drs { d.FoundBefore = 0 }].
    [drs] is a slice of struct values, so every iteration copies the
    element into the loop variable [d], and the assignment writes the
    field of that copy. The state is the slice together with the loop
    variable; one iteration is [reset_body]. *)
Definition reset_body (st : list Directive * option Directive) (elem : Directive)
  : list Directive * option Directive :=
  let '(drs, _) := st in
  let d := elem in
  let d := set_FoundBefore d 0 in
  (drs, Some d).

Definition reset_loop (drs : list Directive) : list Directive :=
  fst (fold_left reset_body drs (drs, None)).

(** What the specification says of the emitted directives: each has its
    provenance field at zero. *)
Definition provenance_reset (drs : list Directive) : Prop :=
  Forall (fun d => FoundBefore d = 0) drs.

(** ** Merging the transactions (main.go, lines 82-180) *)

Definition state : Type := Z * Z * list Transaction.

(** The loop of lines 87-91, entered with [syncPoint = len(f1trs) - 1]. *)
Fixpoint sync_loop (fuel : nat) (f1trs f2trs : list Transaction) (syncPoint : Z)
  : result Z :=
  match fuel with
  | O => OutOfFuel
  | S fuel =>
      if 0 <=? syncPoint then
        try t1 := index f1trs syncPoint in
        try t2 := index f2trs 0 in
        if String.eqb (Code t1) (Code t2) then Ok syncPoint
        else sync_loop fuel f1trs f2trs (syncPoint - 1)
      else Ok syncPoint
  end.

(** The loop of lines 98-100. *)
Fixpoint prefix_loop (fuel : nat) (f1trs : list Transaction) (syncPoint i : Z)
    (trs : list Transaction) : result (list Transaction) :=
  match fuel with
  | O => OutOfFuel
  | S fuel =>
      if i <=? syncPoint then
        try t := index f1trs i in
        prefix_loop fuel f1trs syncPoint (i + 1) (trs ++ [t])
      else Ok trs
  end.

(** The loop of lines 104-111. *)
Fixpoint overlap_loop (fuel : nat) (f1trs f2trs : list Transaction) (st : state)
  : result state :=
  match fuel with
  | O => OutOfFuel
  | S fuel =>
      let '(i1, i2, trs) := st in
      if (i1 <? len f1trs) || (i2 <? len f2trs) then
        try t1 := index f1trs i1 in
        try t2 := index f2trs i2 in
        if negb (String.eqb (Code t1) (Code t2)) then Ok st
        else overlap_loop fuel f1trs f2trs (i1 + 1, i2 + 1, trs ++ [t1])
      else Ok st
  end.

(** [trs = append(trs, f1trs[i1]); i1++; continue] *)
Definition take1 (st : state) (t1 : Transaction) : result state :=
  let '(i1, i2, trs) := st in Ok (i1 + 1, i2, trs ++ [t1]).

(** [trs = append(trs, f2trs[i2]); i2++; continue] *)
Definition take2 (st : state) (t2 : Transaction) : result state :=
  let '(i1, i2, trs) := st in Ok (i1, i2 + 1, trs ++ [t2]).

Definition unorderable_msg : string :=
  "Error: Could not order some transactions. Ensure all transactions have ID and RID keys as appropriate.".

(** Lines 139-179: the two transactions have the same date. *)
Definition tie_break (st : state) (t1 t2 : Transaction) : result state :=
  let dir := chooseAB (KVPairs t1) (KVPairs t2) "ID" in
  if dir <? 0 then take1 st t1
  else if 0 <? dir then take2 st t2
  else
    let dir := chooseAB (KVPairs t1) (KVPairs t2) "RID" in
    if dir <? 0 then take1 st t1
    else if 0 <? dir then take2 st t2
    else
      let dir := chooseAB (KVPairs t1) (KVPairs t2) "FITID" in
      if dir <? 0 then take1 st t1
      else if 0 <? dir then take2 st t2
      else Exit unorderable_msg.

(** The body of the loop of lines 114-180. *)
Definition zipper_body (f1trs f2trs : list Transaction) (st : state) : result state :=
  let '(i1, i2, _) := st in
  if len f1trs <=? i1 then
    try t2 := index f2trs i2 in take2 st t2
  else if len f2trs <=? i2 then
    try t1 := index f1trs i1 in take1 st t1
  else
    try t1 := index f1trs i1 in
    try t2 := index f2trs i2 in
    if Date t1 <? Date t2 then take1 st t1
    else if Date t2 <? Date t1 then take2 st t2
    else tie_break st t1 t2.

(** The loop of lines 114-180. *)
Fixpoint zipper_loop (fuel : nat) (f1trs f2trs : list Transaction) (st : state)
  : result (list Transaction) :=
  match fuel with
  | O => OutOfFuel
  | S fuel =>
      let '(i1, i2, trs) := st in
      if (i1 <? len f1trs) || (i2 <? len f2trs) then
        try st' := zipper_body f1trs f2trs st in
        zipper_loop fuel f1trs f2trs st'
      else Ok trs
  end.

Definition no_sync_msg : string := "No sync point found!".

(** No loop of the merge runs more often than this. *)
Definition loop_bound (f1trs f2trs : list Transaction) : nat :=
  S (length f1trs + length f2trs).

(** Lines 86-91: the sync point the scan ends on. *)
Definition find_sync (f1trs f2trs : list Transaction) : result Z :=
  sync_loop (loop_bound f1trs f2trs) f1trs f2trs (len f1trs - 1).

(** Lines 92-111: the state after the common run has been copied. *)
Definition common_run (f1trs f2trs : list Transaction) (syncPoint : Z) : result state :=
  let fuel := loop_bound f1trs f2trs in
  let trs : list Transaction := [] in
  if syncPoint =? len f1trs then Exit no_sync_msg
  else
    try trs := prefix_loop fuel f1trs syncPoint 0 trs in
    overlap_loop fuel f1trs f2trs (syncPoint + 1, 1, trs).

(** Lines 82-180. *)
Definition merge_transactions (f1trs f2trs : list Transaction)
  : result (list Transaction) :=
  try syncPoint := find_sync f1trs f2trs in
  try st := common_run f1trs f2trs syncPoint in
  zipper_loop (loop_bound f1trs f2trs) f1trs f2trs st.

(** What holds of the state [(j1, j2, out)] the walk ends in when it
    does not panic: both cursors have moved by the same number [k] of
    steps, the transactions passed have pairwise equal codes, the
    master's copies were appended, and the walk stopped on a mismatch or
    with both slices exhausted. *)
Definition walk_ends (f1trs f2trs : list Transaction) (st st' : state) : Prop :=
  let '(i1, i2, trs) := st in
  let '(j1, j2, out) := st' in
  exists k,
    0 <= k /\ j1 = i1 + k /\ j2 = i2 + k
    /\ out ++ drop (Z.to_nat j1) f1trs = trs ++ drop (Z.to_nat i1) f1trs
    /\ (forall d, 0 <= d < k ->
          exists t1 t2, index f1trs (i1 + d) = Ok t1
                        /\ index f2trs (i2 + d) = Ok t2
                        /\ Code t1 = Code t2)
    /\ (i1 <= len f1trs -> j1 <= len f1trs)
    /\ (i2 <= len f2trs -> j2 <= len f2trs)
    /\ ((len f1trs <= j1 /\ len f2trs <= j2)
        \/ exists t1 t2, index f1trs j1 = Ok t1 /\ index f2trs j2 = Ok t2
                         /\ Code t1 <> Code t2).

(** The overlap of the two files, as a number of transactions: the sync
    point and the transactions after it that the overlap walk passes.
    Their codes agree pairwise, and the run ends where both files end or
    on the first pair of differing codes. *)
Definition is_overlap (f1trs f2trs : list Transaction) (syncPoint overlap : Z) : Prop :=
  1 <= overlap
  /\ (forall d, 0 <= d < overlap ->
        exists t1 t2, index f1trs (syncPoint + d) = Ok t1
                      /\ index f2trs d = Ok t2
                      /\ Code t1 = Code t2)
  /\ ((len f1trs <= syncPoint + overlap /\ len f2trs <= overlap)
      \/ exists t1 t2, index f1trs (syncPoint + overlap) = Ok t1
                       /\ index f2trs overlap = Ok t2
                       /\ Code t1 <> Code t2).

(** ** The program after parsing (main.go, lines 66-193) *)

(** The model starts where both files have been parsed (line 66); the
    handling of the arguments and the opening and parsing of the two
    files (lines 35-64) belong to the I/O layer and the parser.

    What the program does to the outside world from there on: *)
Inductive event : Type :=
| Println (msg : string)
| OsExit (code : Z)
| OsCreate (dest : string)
| WriteLedgerFile (trs : list Transaction) (drs : list Directive)
| Close
| RuntimePanic.

(** The errors returned by [os.Create] and [ledger.WriteLedgerFile]. *)
Record environment := mkEnvironment {
  create_err : option string;
  write_err : option string
}.

(** Lines 182-193, or the exit of the failed merge. *)
Definition finish (env : environment) (dest : string)
    (drs : list Directive) (r : result (list Transaction)) : list event :=
  match r with
  | Ok trs =>
      match create_err env with
      | Some err => [OsCreate dest; Println err; OsExit 1]
      | None =>
          match write_err env with
          | Some err => [OsCreate dest; WriteLedgerFile trs drs; Println err; OsExit 1]
          | None => [OsCreate dest; WriteLedgerFile trs drs; Close]
          end
      end
  | Exit msg => [Println msg; OsExit 1]
  | Panic => [RuntimePanic]
  | OutOfFuel => []
  end.

Definition main (Compare : Directive -> Directive -> bool) (env : environment)
    (dest : string) (f1trs : list Transaction) (f1drs : list Directive)
    (f2trs : list Transaction) (f2drs : list Directive) : list event :=
  let drs := merge_directives Compare f1drs f2drs in
  let drs := reset_loop drs in
  finish env dest drs (merge_transactions f1trs f2trs).

(** ** The tie-break as the specification words it (section 4.3, step 4) *)

Inductive verdict : Type := First | Second | Neither.

(** One key: presence beats absence; two differing values are ordered
    lexically; otherwise the key does not decide. *)
Definition key_rule (a b : gmap string string) (key : string) : verdict :=
  match a !! key, b !! key with
  | Some _, None => First
  | None, Some _ => Second
  | None, None => Neither
  | Some va, Some vb =>
      if String.eqb va vb then Neither
      else if String.ltb va vb then First
      else Second
  end.

(** The keys are tried in order until one decides. *)
Fixpoint cascade (a b : gmap string string) (keys : list string) : verdict :=
  match keys with
  | [] => Neither
  | key :: keys =>
      match key_rule a b key with
      | Neither => cascade a b keys
      | v => v
      end
  end.

Definition tie_keys : list string := ["ID"; "RID"; "FITID"].

(** ** The transaction merge as a transition system

    One configuration per loop head of lines 86-180, and one rule per
    branch of the source. *)

Inductive config : Type :=
| AtSync (syncPoint : Z)                                 (* line 87 *)
| AtCheck (syncPoint : Z)                                (* line 92 *)
| AtPrefix (syncPoint i : Z) (trs : list Transaction)    (* line 98 *)
| AtOverlap (st : state)                                 (* line 104 *)
| AtZipper (st : state)                                  (* line 114 *)
| Halt (r : result (list Transaction)).

(** The tie-break of lines 139-179, over the sign of [chooseAB]. *)
Inductive tie_rel (t1 t2 : Transaction) : list string -> verdict -> Prop :=
| tie_none : tie_rel t1 t2 [] Neither
| tie_first key keys :
    chooseAB (KVPairs t1) (KVPairs t2) key < 0 ->
    tie_rel t1 t2 (key :: keys) First
| tie_second key keys :
    0 < chooseAB (KVPairs t1) (KVPairs t2) key ->
    tie_rel t1 t2 (key :: keys) Second
| tie_next key keys v :
    chooseAB (KVPairs t1) (KVPairs t2) key = 0 ->
    tie_rel t1 t2 keys v ->
    tie_rel t1 t2 (key :: keys) v.

Definition after_tie (st : state) (t1 t2 : Transaction) (v : verdict) : config :=
  let '(i1, i2, trs) := st in
  match v with
  | First => AtZipper (i1 + 1, i2, trs ++ [t1])
  | Second => AtZipper (i1, i2 + 1, trs ++ [t2])
  | Neither => Halt (Exit unorderable_msg)
  end.

Inductive step (f1trs f2trs : list Transaction) : config -> config -> Prop :=
(* lines 87-91 *)
| step_sync_done syncPoint :
    syncPoint < 0 ->
    step f1trs f2trs (AtSync syncPoint) (AtCheck syncPoint)
| step_sync_panic1 syncPoint :
    0 <= syncPoint -> index f1trs syncPoint = Panic ->
    step f1trs f2trs (AtSync syncPoint) (Halt Panic)
| step_sync_panic2 syncPoint t1 :
    0 <= syncPoint -> index f1trs syncPoint = Ok t1 -> index f2trs 0 = Panic ->
    step f1trs f2trs (AtSync syncPoint) (Halt Panic)
| step_sync_break syncPoint t1 t2 :
    0 <= syncPoint -> index f1trs syncPoint = Ok t1 -> index f2trs 0 = Ok t2 ->
    Code t1 = Code t2 ->
    step f1trs f2trs (AtSync syncPoint) (AtCheck syncPoint)
| step_sync_next syncPoint t1 t2 :
    0 <= syncPoint -> index f1trs syncPoint = Ok t1 -> index f2trs 0 = Ok t2 ->
    Code t1 <> Code t2 ->
    step f1trs f2trs (AtSync syncPoint) (AtSync (syncPoint - 1))
(* lines 92-95 *)
| step_check_exit syncPoint :
    syncPoint = len f1trs ->
    step f1trs f2trs (AtCheck syncPoint) (Halt (Exit no_sync_msg))
| step_check_pass syncPoint :
    syncPoint <> len f1trs ->
    step f1trs f2trs (AtCheck syncPoint) (AtPrefix syncPoint 0 [])
(* lines 98-100 *)
| step_prefix_done syncPoint i trs :
    syncPoint < i ->
    step f1trs f2trs (AtPrefix syncPoint i trs) (AtOverlap (syncPoint + 1, 1, trs))
| step_prefix_panic syncPoint i trs :
    i <= syncPoint -> index f1trs i = Panic ->
    step f1trs f2trs (AtPrefix syncPoint i trs) (Halt Panic)
| step_prefix_next syncPoint i trs t :
    i <= syncPoint -> index f1trs i = Ok t ->
    step f1trs f2trs (AtPrefix syncPoint i trs) (AtPrefix syncPoint (i + 1) (trs ++ [t]))
(* lines 104-111 *)
| step_overlap_done i1 i2 trs :
    len f1trs <= i1 -> len f2trs <= i2 ->
    step f1trs f2trs (AtOverlap (i1, i2, trs)) (AtZipper (i1, i2, trs))
| step_overlap_panic1 i1 i2 trs :
    i1 < len f1trs \/ i2 < len f2trs -> index f1trs i1 = Panic ->
    step f1trs f2trs (AtOverlap (i1, i2, trs)) (Halt Panic)
| step_overlap_panic2 i1 i2 trs t1 :
    i1 < len f1trs \/ i2 < len f2trs ->
    index f1trs i1 = Ok t1 -> index f2trs i2 = Panic ->
    step f1trs f2trs (AtOverlap (i1, i2, trs)) (Halt Panic)
| step_overlap_break i1 i2 trs t1 t2 :
    i1 < len f1trs \/ i2 < len f2trs ->
    index f1trs i1 = Ok t1 -> index f2trs i2 = Ok t2 ->
    Code t1 <> Code t2 ->
    step f1trs f2trs (AtOverlap (i1, i2, trs)) (AtZipper (i1, i2, trs))
| step_overlap_next i1 i2 trs t1 t2 :
    i1 < len f1trs \/ i2 < len f2trs ->
    index f1trs i1 = Ok t1 -> index f2trs i2 = Ok t2 ->
    Code t1 = Code t2 ->
    step f1trs f2trs (AtOverlap (i1, i2, trs)) (AtOverlap (i1 + 1, i2 + 1, trs ++ [t1]))
(* lines 114-180 *)
| step_zipper_done i1 i2 trs :
    len f1trs <= i1 -> len f2trs <= i2 ->
    step f1trs f2trs (AtZipper (i1, i2, trs)) (Halt (Ok trs))
| step_zipper_rest2 i1 i2 trs t2 :
    len f1trs <= i1 -> i2 < len f2trs -> index f2trs i2 = Ok t2 ->
    step f1trs f2trs (AtZipper (i1, i2, trs)) (AtZipper (i1, i2 + 1, trs ++ [t2]))
| step_zipper_rest2_panic i1 i2 trs :
    len f1trs <= i1 -> i2 < len f2trs -> index f2trs i2 = Panic ->
    step f1trs f2trs (AtZipper (i1, i2, trs)) (Halt Panic)
| step_zipper_rest1 i1 i2 trs t1 :
    i1 < len f1trs -> len f2trs <= i2 -> index f1trs i1 = Ok t1 ->
    step f1trs f2trs (AtZipper (i1, i2, trs)) (AtZipper (i1 + 1, i2, trs ++ [t1]))
| step_zipper_panic1 i1 i2 trs :
    i1 < len f1trs -> index f1trs i1 = Panic ->
    step f1trs f2trs (AtZipper (i1, i2, trs)) (Halt Panic)
| step_zipper_panic2 i1 i2 trs t1 :
    i1 < len f1trs -> i2 < len f2trs ->
    index f1trs i1 = Ok t1 -> index f2trs i2 = Panic ->
    step f1trs f2trs (AtZipper (i1, i2, trs)) (Halt Panic)
| step_zipper_before i1 i2 trs t1 t2 :
    i1 < len f1trs -> i2 < len f2trs ->
    index f1trs i1 = Ok t1 -> index f2trs i2 = Ok t2 ->
    Date t1 < Date t2 ->
    step f1trs f2trs (AtZipper (i1, i2, trs)) (AtZipper (i1 + 1, i2, trs ++ [t1]))
| step_zipper_after i1 i2 trs t1 t2 :
    i1 < len f1trs -> i2 < len f2trs ->
    index f1trs i1 = Ok t1 -> index f2trs i2 = Ok t2 ->
    Date t2 < Date t1 ->
    step f1trs f2trs (AtZipper (i1, i2, trs)) (AtZipper (i1, i2 + 1, trs ++ [t2]))
| step_zipper_tie i1 i2 trs t1 t2 v :
    i1 < len f1trs -> i2 < len f2trs ->
    index f1trs i1 = Ok t1 -> index f2trs i2 = Ok t2 ->
    Date t1 = Date t2 ->
    tie_rel t1 t2 tie_keys v ->
    step f1trs f2trs (AtZipper (i1, i2, trs)) (after_tie (i1, i2, trs) t1 t2 v).

(** A run of the transaction merge: from the head of the scan to the end. *)
Definition merges_to (f1trs f2trs : list Transaction)
    (r : result (list Transaction)) : Prop :=
  rtc (step f1trs f2trs) (AtSync (len f1trs - 1)) (Halt r).

(** A run of the program: the directives are merged, the transactions
    are merged, and the outcome decides what is written. *)
Inductive runs (Compare : Directive -> Directive -> bool) (env : environment)
    (dest : string) (f1trs : list Transaction) (f1drs : list Directive)
    (f2trs : list Transaction) (f2drs : list Directive) : list event -> Prop :=
| runs_intro r :
    merges_to f1trs f2trs r ->
    runs Compare env dest f1trs f1drs f2trs f2drs
      (finish env dest (reset_loop (merge_directives Compare f1drs f2drs)) r).

(** ** Sample data *)

Definition tx (code : string) (date : Z) : Transaction :=
  {| Date := date; Code := code; KVPairs := ∅ |}.

Definition txk (code : string) (date : Z) (k v : string) : Transaction :=
  {| Date := date; Code := code; KVPairs := {[ k := v ]} |}.

(** Modelled from the spec: [Compare] of [ledger.Directive] is defined in
    the ledger package; the spec calls it structural equality ignoring
    provenance. *)
Definition Compare_content (d1 d2 : Directive) : bool :=
  String.eqb (Content d1) (Content d2).

Definition env_ok : environment := {| create_err := None; write_err := None |}.

(** ** The command line (main.go, lines 35-42) *)

(** What the program goes on to do after looking at [os.Args]: print
    the usage text and return, or merge the files named. *)
Inductive command : Type :=
| ShowUsage
| Merge (dest f1 f2 : string).

(** [os.Args[1] == "help" || os.Args[1] == "-h" || os.Args[1] == "--help"],
    evaluated from the left, each disjunct only when the ones before it
    are false. *)
Definition asks_for_help (Args : list string) : result bool :=
  try a := index Args 1 in
  if String.eqb a "help" then Ok true
  else
    try a := index Args 1 in
    if String.eqb a "-h" then Ok true
    else
      try a := index Args 1 in
      Ok (String.eqb a "--help").

(** The condition of line 35. *)
Definition wants_usage (Args : list string) : result bool :=
  if len Args <? 4 then Ok true
  else if 1 <? len Args then asks_for_help Args
  else Ok false.

(** Lines 35-42. *)
Definition arguments (Args : list string) : result command :=
  try u := wants_usage Args in
  if u then Ok ShowUsage
  else
    try dest := index Args 1 in
    try f1 := index Args 2 in
    try f2 := index Args 3 in
    Ok (Merge dest f1 f2).

(** ** Notions used to state properties of the merge *)

(** The two cursors of a zipper state exchanged. *)
Definition swap (st : state) : state :=
  let '(i1, i2, trs) := st in (i2, i1, trs).

Definition swap_result (r : result state) : result state :=
  match r with
  | Ok st => Ok (swap st)
  | Panic => Panic
  | Exit msg => Exit msg
  | OutOfFuel => OutOfFuel
  end.

Definition opposite (v : verdict) : verdict :=
  match v with
  | First => Second
  | Second => First
  | Neither => Neither
  end.

(** [t] is not dated after [u]. *)
Definition not_after (t u : Transaction) : Prop := Date t <= Date u.

(** A file in chronological order. *)
Definition chronological (trs : list Transaction) : Prop :=
  StronglySorted not_after trs.

(** Some tie-break key is set differently on the two transactions. *)
Definition told_apart (t1 t2 : Transaction) : Prop :=
  Exists (fun key => KVPairs t1 !! key <> KVPairs t2 !! key) tie_keys.

(** The overlap walk, entered with the cursors [i1] and [i2], passes [k]
    pairs of equal codes and then finds one file at its end and the
    other not. *)
Definition walk_runs_off (f1trs f2trs : list Transaction) (i1 i2 : Z) : Prop :=
  exists k,
    0 <= k
    /\ (forall d, 0 <= d < k ->
          exists t1 t2, index f1trs (i1 + d) = Ok t1
                        /\ index f2trs (i2 + d) = Ok t2
                        /\ Code t1 = Code t2)
    /\ ((len f1trs <= i1 + k /\ i2 + k < len f2trs)
        \/ (i1 + k < len f1trs /\ len f2trs <= i2 + k)).

(** Two transactions with the same code. *)
Definition same_code (t u : Transaction) : Prop := Code t = Code u.

(** * Properties *)

(** ** Properties of chooseAB *)

Lemma string_ltb_flip (s t : string) :
  String.eqb s t = false -> String.ltb t s = negb (String.ltb s t).
Proof.
  intros Hne. unfold String.ltb.
  rewrite (String.compare_antisym t s).
  destruct (String.compare s t) eqn:Hc; simpl; try reflexivity.
  apply String.compare_eq_iff in Hc. subst t.
  rewrite String.eqb_refl in Hne. discriminate.
Qed.

(** C10: swapping the two maps negates the verdict of [chooseAB]. *)
Theorem chooseAB_antisym (a b : gmap string string) (key : string) :
  chooseAB a b key = - chooseAB b a key.
Proof.
  unfold chooseAB, map_get.
  destruct (a !! key) as [va|], (b !! key) as [vb|]; simpl; try reflexivity.
  rewrite (String.eqb_sym vb va).
  destruct (String.eqb va vb) eqn:Heq; [reflexivity|].
  rewrite (string_ltb_flip va vb Heq).
  destruct (String.ltb va vb); reflexivity.
Qed.


(** ** Slices *)

Lemma len_nonneg {A} (s : list A) : 0 <= len s.
Proof. unfold len. lia. Qed.

Lemma index_Ok_inv {A} (s : list A) (i : Z) (x : A) :
  index s i = Ok x -> 0 <= i < len s /\ s !! Z.to_nat i = Some x.
Proof.
  unfold index, len. destruct (Z.ltb_spec i 0); [discriminate|].
  destruct (s !! Z.to_nat i) eqn:Hl; [|discriminate].
  intros [= ->]. apply lookup_lt_Some in Hl as Hlt. split; [lia|reflexivity].
Qed.

Lemma index_in_range {A} (s : list A) (i : Z) :
  0 <= i < len s -> exists x, index s i = Ok x /\ s !! Z.to_nat i = Some x.
Proof.
  unfold index, len. intros Hi.
  destruct (Z.ltb_spec i 0); [lia|].
  destruct (lookup_lt_is_Some_2 s (Z.to_nat i)) as [x Hx]; [lia|].
  exists x. rewrite Hx. auto.
Qed.

Lemma index_cases {A} (s : list A) (i : Z) :
  (exists x, index s i = Ok x) \/ index s i = Panic.
Proof.
  unfold index. destruct (i <? 0); [auto|].
  destruct (s !! Z.to_nat i); eauto.
Qed.

Lemma index_drop {A} (s : list A) (i : Z) (x : A) :
  index s i = Ok x ->
  drop (Z.to_nat i) s = x :: drop (Z.to_nat (i + 1)) s.
Proof.
  intros H. apply index_Ok_inv in H as [Hi Hl].
  replace (Z.to_nat (i + 1)) with (S (Z.to_nat i)) by lia.
  apply drop_S. exact Hl.
Qed.

(** ** The directive merge *)

Section DirectiveProperties.

Variable Compare : Directive -> Directive -> bool.

Lemma inner_loop_forallb (d2 : Directive) (f1drs : list Directive) :
  inner_loop Compare d2 f1drs
  = negb (forallb (fun d1 => negb (Compare d2 d1)) f1drs).
Proof.
  induction f1drs as [|d1 rest IH]; simpl; [reflexivity|].
  destruct (Compare d2 d1); simpl; [reflexivity|exact IH].
Qed.

Lemma outer_loop_filter (f1drs f2drs drs : list Directive) :
  outer_loop Compare f1drs f2drs drs
  = drs ++ List.filter
             (fun d2 => forallb (fun d1 => negb (Compare d2 d1)) f1drs) f2drs.
Proof.
  revert drs. induction f2drs as [|d2 rest IH]; intros drs; simpl.
  - symmetry. apply app_nil_r.
  - rewrite inner_loop_forallb.
    destruct (forallb _ f1drs); simpl; rewrite IH; [|reflexivity].
    rewrite <- app_assoc. reflexivity.
Qed.

(** C6: the directive merge returns [a] followed by the elements of [b]
    that [Compare] matches with no element of [a], each part in its
    original order. *)
Theorem merge_directives_correct (a b : list Directive) :
  merge_directives Compare a b = merge_directives_spec Compare a b.
Proof.
  unfold merge_directives, merge_directives_spec.
  rewrite outer_loop_filter. reflexivity.
Qed.

End DirectiveProperties.

Lemma reset_loop_fold (l drs : list Directive) (d : option Directive) :
  fst (fold_left reset_body l (drs, d)) = drs.
Proof.
  revert d. induction l as [|x l IH]; intros d; simpl; [reflexivity|apply IH].
Qed.

(** The loop of lines 78-80 leaves the slice as it was. *)
Lemma reset_loop_same (drs : list Directive) : reset_loop drs = drs.
Proof. unfold reset_loop. apply reset_loop_fold. Qed.

(** C7 (fails on the code): the master holds one directive of
    provenance 5; the program hands it to the serializer with that
    provenance, not with zero. *)
Theorem provenance_not_reset :
  let d := {| Content := "account Assets"; FoundBefore := 5 |} in
  main Compare_content env_ok "out.ledger" [tx "B" 1] [d] [tx "B" 1] []
  = [OsCreate "out.ledger"; WriteLedgerFile [tx "B" 1] [d]; Close]
  /\ ~ provenance_reset [d].
Proof.
  split; [vm_compute; reflexivity|].
  intros H. apply Forall_inv in H. simpl in H. discriminate.
Qed.

(** ** The tie-break *)

Lemma chooseAB_key_rule (a b : gmap string string) (key : string) :
  match key_rule a b key with
  | First => chooseAB a b key = -1
  | Second => chooseAB a b key = 1
  | Neither => chooseAB a b key = 0
  end.
Proof.
  unfold key_rule, chooseAB, map_get.
  destruct (a !! key) as [va|], (b !! key) as [vb|]; simpl; try reflexivity.
  destruct (String.eqb va vb); [reflexivity|].
  destruct (String.ltb va vb); reflexivity.
Qed.

Lemma tie_break_cascade (st : state) (t1 t2 : Transaction) :
  tie_break st t1 t2
  = match cascade (KVPairs t1) (KVPairs t2) tie_keys with
    | First => take1 st t1
    | Second => take2 st t2
    | Neither => Exit unorderable_msg
    end.
Proof.
  unfold tie_break, tie_keys, cascade.
  pose proof (chooseAB_key_rule (KVPairs t1) (KVPairs t2) "ID") as H1.
  pose proof (chooseAB_key_rule (KVPairs t1) (KVPairs t2) "RID") as H2.
  pose proof (chooseAB_key_rule (KVPairs t1) (KVPairs t2) "FITID") as H3.
  destruct (key_rule _ _ "ID"); rewrite H1; simpl; try reflexivity.
  destruct (key_rule _ _ "RID"); rewrite H2; simpl; try reflexivity.
  destruct (key_rule _ _ "FITID"); rewrite H3; simpl; reflexivity.
Qed.

(** C4: on two tail transactions of equal date the loop body follows the
    cascade over "ID", "RID", "FITID": the first key that decides picks
    the side that alone has it, or the side with the lexically smaller
    value; a key absent on both sides or equal on both is passed over. *)
Theorem zipper_tie_break (f1trs f2trs : list Transaction) (i1 i2 : Z)
    (trs : list Transaction) (t1 t2 : Transaction) :
  index f1trs i1 = Ok t1 ->
  index f2trs i2 = Ok t2 ->
  Date t1 = Date t2 ->
  tie_keys = ["ID"; "RID"; "FITID"] /\
  zipper_body f1trs f2trs (i1, i2, trs)
  = match cascade (KVPairs t1) (KVPairs t2) tie_keys with
    | First => Ok (i1 + 1, i2, trs ++ [t1])
    | Second => Ok (i1, i2 + 1, trs ++ [t2])
    | Neither => Exit unorderable_msg
    end.
Proof.
  intros H1 H2 Hd. split; [reflexivity|].
  pose proof (index_Ok_inv _ _ _ H1) as [R1 _].
  pose proof (index_Ok_inv _ _ _ H2) as [R2 _].
  unfold zipper_body.
  destruct (Z.leb_spec (len f1trs) i1); [lia|].
  destruct (Z.leb_spec (len f2trs) i2); [lia|].
  rewrite H1, H2. cbn [bind].
  destruct (Z.ltb_spec (Date t1) (Date t2)); [lia|].
  destruct (Z.ltb_spec (Date t2) (Date t1)); [lia|].
  rewrite tie_break_cascade.
  destruct (cascade _ _ tie_keys); reflexivity.
Qed.

(** ** The scan for the sync point *)

(** With an empty source the first test of the scan is out of range. *)
Lemma sync_loop_empty_source (fuel : nat) (f1trs : list Transaction) (syncPoint : Z) :
  0 <= syncPoint < len f1trs ->
  sync_loop (S fuel) f1trs [] syncPoint = Panic.
Proof.
  intros Hs. simpl.
  destruct (Z.leb_spec 0 syncPoint); [|lia].
  destruct (index_in_range f1trs syncPoint Hs) as (t1 & -> & _).
  reflexivity.
Qed.

(** With a source that has a head the scan ends on the last transaction
    of the master with the head's code, or on -1. *)
Lemma sync_loop_spec (fuel : nat) (f1trs : list Transaction)
    (t2 : Transaction) (rest : list Transaction) (syncPoint : Z) :
  -1 <= syncPoint < len f1trs ->
  syncPoint + 1 < Z.of_nat fuel ->
  exists r,
    sync_loop fuel f1trs (t2 :: rest) syncPoint = Ok r
    /\ -1 <= r <= syncPoint
    /\ (0 <= r -> exists t1, index f1trs r = Ok t1 /\ Code t1 = Code t2)
    /\ (forall j t1, r < j <= syncPoint -> index f1trs j = Ok t1 -> Code t1 <> Code t2).
Proof.
  revert syncPoint. induction fuel as [|fuel IH]; intros sp Hs Hf; [lia|].
  simpl. destruct (Z.leb_spec 0 sp) as [Hge|Hlt].
  - destruct (index_in_range f1trs sp) as (t1 & Ht1 & _); [lia|].
    rewrite Ht1. change (index (t2 :: rest) 0) with (@Ok Transaction t2).
    cbn [bind].
    destruct (String.eqb_spec (Code t1) (Code t2)) as [Heq|Hne].
    + exists sp. repeat split; try lia; eauto.
    + destruct (IH (sp - 1)) as (r & Hr & Hb & Hhit & Hmiss); [lia|lia|].
      exists r. rewrite Hr. repeat split; try lia; auto.
      intros j t Hj Hjt.
      destruct (Z.eq_dec j sp) as [Hjs|Hjs].
      * rewrite Hjs, Ht1 in Hjt. injection Hjt as <-. exact Hne.
      * apply (Hmiss j); [lia|exact Hjt].
  - exists sp. repeat split; try lia.
Qed.

Lemma sync_loop_le (fuel : nat) (f1trs f2trs : list Transaction) (syncPoint r : Z) :
  sync_loop fuel f1trs f2trs syncPoint = Ok r -> r <= syncPoint.
Proof.
  revert syncPoint. induction fuel as [|fuel IH]; intros sp; simpl; [discriminate|].
  destruct (0 <=? sp); [|intros [= ->]; lia].
  destruct (index f1trs sp) as [t1| | |]; simpl; try discriminate.
  destruct (index f2trs 0) as [t2| | |]; simpl; try discriminate.
  destruct (String.eqb (Code t1) (Code t2)); [intros [= ->]; lia|].
  intros H. apply IH in H. lia.
Qed.

Lemma find_sync_empty_master (f2trs : list Transaction) :
  find_sync [] f2trs = Ok (-1).
Proof. reflexivity. Qed.

Lemma find_sync_empty_source (t1 : Transaction) (f1trs : list Transaction) :
  find_sync (t1 :: f1trs) [] = Panic.
Proof.
  unfold find_sync, loop_bound. apply sync_loop_empty_source.
  unfold len. simpl length. lia.
Qed.

Lemma find_sync_spec (f1trs : list Transaction) (t2 : Transaction)
    (rest : list Transaction) :
  exists r,
    find_sync f1trs (t2 :: rest) = Ok r
    /\ -1 <= r < len f1trs
    /\ (0 <= r -> exists t1, index f1trs r = Ok t1 /\ Code t1 = Code t2)
    /\ (forall j t1, r < j -> index f1trs j = Ok t1 -> Code t1 <> Code t2).
Proof.
  pose proof (len_nonneg f1trs) as Hl.
  destruct (sync_loop_spec (loop_bound f1trs (t2 :: rest)) f1trs t2 rest (len f1trs - 1))
    as (r & Hr & Hb & Hhit & Hmiss).
  - lia.
  - unfold loop_bound, len. lia.
  - exists r. repeat split; try lia; auto.
    intros j t1 Hj Hjt. apply (Hmiss j t1); [|exact Hjt].
    apply index_Ok_inv in Hjt. lia.
Qed.

(** C9 (amended): the scan reads the head of the source once per
    iteration, so only when the master is not empty: with a non-empty
    master an empty source makes the read, and the merge, panic, and a
    non-empty source makes the scan end in range; with an empty master
    nothing is read and the scan ends on -1. *)
Theorem find_sync_source_head (f1trs f2trs : list Transaction) :
  match f1trs, f2trs with
  | [], _ => find_sync f1trs f2trs = Ok (-1)
  | _ :: _, [] =>
      find_sync f1trs f2trs = Panic /\ merge_transactions f1trs f2trs = Panic
  | _ :: _, t2 :: _ =>
      index f2trs 0 = Ok t2 /\
      exists syncPoint,
        find_sync f1trs f2trs = Ok syncPoint /\ -1 <= syncPoint < len f1trs
  end.
Proof.
  destruct f1trs as [|t1 f1trs]; [apply find_sync_empty_master|].
  destruct f2trs as [|t2 f2trs].
  - pose proof (find_sync_empty_source t1 f1trs) as H. split; [exact H|].
    unfold merge_transactions. rewrite H. reflexivity.
  - split; [reflexivity|].
    destruct (find_sync_spec (t1 :: f1trs) t2 f2trs) as (r & Hr & Hb & _).
    exists r. split; [exact Hr|exact Hb].
Qed.

(** C9 (as stated, fails): with both files empty the head of the source
    is not read, and the merge goes through. *)
Lemma empty_files_merge :
  find_sync [] [] = Ok (-1)
  /\ find_sync [] [] <> Panic
  /\ merge_transactions [] [] = Ok []
  /\ main Compare_content env_ok "out.ledger" [] [] [] []
     = [OsCreate "out.ledger"; WriteLedgerFile [] []; Close].
Proof. repeat split; try reflexivity. discriminate. Qed.

(** The test of line 92 compares the end of the scan with [len(f1trs)],
    which the scan never ends on. *)
Lemma find_sync_below_len (f1trs f2trs : list Transaction) (syncPoint : Z) :
  find_sync f1trs f2trs = Ok syncPoint -> (syncPoint =? len f1trs) = false.
Proof.
  intros H. apply sync_loop_le in H. apply Z.eqb_neq. lia.
Qed.

(** C2 (fails on the code): the code "B" of the source's head is nowhere
    in the master; the scan ends on -1, no error is reported, and a
    merged file is written that lacks the source's head. *)
Theorem missing_sync_point_not_reported :
  let f1trs := [tx "A" 1] in
  let f2trs := [tx "B" 0; tx "C" 2] in
  Forall (fun t1 => Code t1 <> "B") f1trs
  /\ find_sync f1trs f2trs = Ok (-1)
  /\ merge_transactions f1trs f2trs = Ok [tx "A" 1; tx "C" 2]
  /\ main Compare_content env_ok "out.ledger" f1trs [] f2trs []
     = [OsCreate "out.ledger"; WriteLedgerFile [tx "A" 1; tx "C" 2] []; Close].
Proof.
  cbv zeta. split; [|repeat split; vm_compute; reflexivity].
  constructor; [|constructor]. simpl. discriminate.
Qed.

(** C3 (fails on the code): the master ends on the sync point and the
    source goes on; the overlap walk is entered with [i1 = len(f1trs)]
    and indexes the master out of range. *)
Theorem overlap_walk_out_of_range :
  let f1trs := [tx "A" 1; tx "B" 2] in
  let f2trs := [tx "B" 2; tx "C" 3] in
  find_sync f1trs f2trs = Ok 1
  /\ len f1trs = 2
  /\ index f1trs 2 = Panic
  /\ overlap_loop (loop_bound f1trs f2trs) f1trs f2trs (2, 1, f1trs) = Panic
  /\ merge_transactions f1trs f2trs = Panic
  /\ main Compare_content env_ok "out.ledger" f1trs [] f2trs [] = [RuntimePanic].
Proof. cbv zeta. repeat split; vm_compute; reflexivity. Qed.

(** ** The copy of the master up to the sync point *)

Lemma prefix_loop_spec (fuel : nat) (f1trs : list Transaction) (syncPoint i : Z)
    (trs : list Transaction) :
  0 <= i <= syncPoint + 1 -> syncPoint < len f1trs ->
  syncPoint + 1 - i < Z.of_nat fuel ->
  exists out,
    prefix_loop fuel f1trs syncPoint i trs = Ok out
    /\ out ++ drop (Z.to_nat (syncPoint + 1)) f1trs = trs ++ drop (Z.to_nat i) f1trs.
Proof.
  revert i trs. induction fuel as [|fuel IH]; intros i trs Hi Hs Hf; [lia|].
  simpl. destruct (Z.leb_spec i syncPoint) as [Hle|Hgt].
  - destruct (index_in_range f1trs i) as (t & Ht & _); [lia|].
    rewrite Ht. cbn [bind].
    destruct (IH (i + 1) (trs ++ [t])) as (out & Hout & Heq); [lia|lia|lia|].
    exists out. split; [exact Hout|].
    rewrite Heq, (index_drop _ _ _ Ht), <- app_assoc. reflexivity.
  - exists trs. split; [reflexivity|].
    replace (syncPoint + 1) with i by lia. reflexivity.
Qed.

(** ** The overlap walk *)

Lemma overlap_loop_spec (fuel : nat) (f1trs f2trs : list Transaction)
    (i1 i2 : Z) (trs : list Transaction) :
  Z.max 0 (len f1trs - i1) < Z.of_nat fuel ->
  match overlap_loop fuel f1trs f2trs (i1, i2, trs) with
  | Ok st' => walk_ends f1trs f2trs (i1, i2, trs) st'
  | Panic => True
  | Exit _ => False
  | OutOfFuel => False
  end.
Proof.
  revert i1 i2 trs. induction fuel as [|fuel IH]; intros i1 i2 trs Hf; [lia|].
  simpl. destruct ((i1 <? len f1trs) || (i2 <? len f2trs)) eqn:Hc.
  - destruct (index_cases f1trs i1) as [[t1 Ht1]|Hp]; rewrite ?Ht1, ?Hp; cbn [bind]; [|exact I].
    destruct (index_cases f2trs i2) as [[t2 Ht2]|Hp]; rewrite ?Ht2, ?Hp; cbn [bind]; [|exact I].
    pose proof (index_Ok_inv _ _ _ Ht1) as [R1 _].
    pose proof (index_Ok_inv _ _ _ Ht2) as [R2 _].
    destruct (String.eqb_spec (Code t1) (Code t2)) as [Heq|Hne]; cbn [negb].
    + specialize (IH (i1 + 1) (i2 + 1) (trs ++ [t1])).
      destruct (overlap_loop fuel f1trs f2trs (i1 + 1, i2 + 1, trs ++ [t1]))
        as [[[j1 j2] out]| | |]; try (apply IH; lia).
      destruct IH as (k & Hk & -> & -> & Happ & Hcodes & Hl1 & Hl2 & Hstop); [lia|].
      exists (k + 1). repeat split; try lia.
      * rewrite Happ, (index_drop _ _ _ Ht1), <- app_assoc. reflexivity.
      * intros d Hd. destruct (Z.eq_dec d 0) as [->|Hd0].
        -- exists t1, t2. rewrite !Z.add_0_r. auto.
        -- destruct (Hcodes (d - 1)) as (u1 & u2 & Hu1 & Hu2 & Hu); [lia|].
           exists u1, u2.
           replace (i1 + d) with (i1 + 1 + (d - 1)) by lia.
           replace (i2 + d) with (i2 + 1 + (d - 1)) by lia. auto.
      * replace (i1 + (k + 1)) with (i1 + 1 + k) by lia.
        replace (i2 + (k + 1)) with (i2 + 1 + k) by lia. exact Hstop.
    + exists 0. rewrite !Z.add_0_r. repeat split; try lia.
      right. exists t1, t2. auto.
  - apply orb_false_iff in Hc as [H1 H2].
    apply Z.ltb_ge in H1, H2.
    exists 0. rewrite !Z.add_0_r. repeat split; lia.
Qed.

(** Entered with one of the two slices exhausted and the other not, the
    walk indexes the exhausted one. *)
Lemma overlap_loop_one_exhausted (fuel : nat) (f1trs f2trs : list Transaction)
    (i1 i2 : Z) (trs : list Transaction) :
  (len f1trs <= i1 /\ i2 < len f2trs) \/ (i1 < len f1trs /\ len f2trs <= i2) ->
  overlap_loop (S fuel) f1trs f2trs (i1, i2, trs) = Panic.
Proof.
  intros Hex. cbn [overlap_loop].
  assert (Hc : (i1 <? len f1trs) || (i2 <? len f2trs) = true).
  { apply orb_true_iff. destruct Hex as [[_ H]|[H _]]; [right|left]; apply Z.ltb_lt; exact H. }
  rewrite Hc.
  destruct (index_cases f1trs i1) as [[t1 Ht1]|Hp1]; rewrite ?Ht1, ?Hp1; cbn [bind];
    [|reflexivity].
  destruct (index_cases f2trs i2) as [[t2 Ht2]|Hp2]; rewrite ?Ht2, ?Hp2; cbn [bind];
    [|reflexivity].
  apply index_Ok_inv in Ht1 as [R1 _], Ht2 as [R2 _]. lia.
Qed.

(** In particular the program panics whenever the master ends on the
    sync point and the source goes on after its head. *)
Lemma master_ends_on_sync_point (f1trs f2trs : list Transaction) :
  find_sync f1trs f2trs = Ok (len f1trs - 1) ->
  1 < len f2trs ->
  merge_transactions f1trs f2trs = Panic.
Proof.
  intros Hs Hb. pose proof (len_nonneg f1trs) as Hl.
  unfold merge_transactions. rewrite Hs. cbn [bind].
  unfold common_run. rewrite (find_sync_below_len _ _ _ Hs). cbv zeta.
  destruct (prefix_loop_spec (loop_bound f1trs f2trs) f1trs (len f1trs - 1) 0 [])
    as (pre & -> & _); [lia|lia|unfold loop_bound, len; lia|].
  cbn [bind]. unfold loop_bound at 1.
  rewrite overlap_loop_one_exhausted; [reflexivity|]. left. lia.
Qed.

(** ** The zipper loop *)

Lemma tie_break_cases (st : state) (t1 t2 : Transaction) :
  tie_break st t1 t2 = take1 st t1
  \/ tie_break st t1 t2 = take2 st t2
  \/ tie_break st t1 t2 = Exit unorderable_msg.
Proof.
  rewrite tie_break_cascade. destruct (cascade _ _ _); auto.
Qed.

(** One turn of the zipper loop takes the transaction under one of the
    two cursors, or gives up on an unorderable pair. *)
Lemma zipper_body_cases (f1trs f2trs : list Transaction) (i1 i2 : Z)
    (trs : list Transaction) :
  match zipper_body f1trs f2trs (i1, i2, trs) with
  | Ok st' =>
      (exists t1, index f1trs i1 = Ok t1 /\ st' = (i1 + 1, i2, trs ++ [t1]))
      \/ (exists t2, index f2trs i2 = Ok t2 /\ st' = (i1, i2 + 1, trs ++ [t2]))
  | Panic => True
  | Exit msg => msg = unorderable_msg
  | OutOfFuel => False
  end.
Proof.
  unfold zipper_body.
  destruct (len f1trs <=? i1).
  { destruct (index_cases f2trs i2) as [[t2 Ht2]|Hp]; rewrite ?Ht2, ?Hp; cbn; eauto. }
  destruct (len f2trs <=? i2).
  { destruct (index_cases f1trs i1) as [[t1 Ht1]|Hp]; rewrite ?Ht1, ?Hp; cbn; eauto. }
  destruct (index_cases f1trs i1) as [[t1 Ht1]|Hp]; rewrite ?Ht1, ?Hp; cbn [bind]; [|exact I].
  destruct (index_cases f2trs i2) as [[t2 Ht2]|Hp]; rewrite ?Ht2, ?Hp; cbn [bind]; [|exact I].
  destruct (Date t1 <? Date t2); [cbn; eauto|].
  destruct (Date t2 <? Date t1); [cbn; eauto|].
  destruct (tie_break_cases (i1, i2, trs) t1 t2) as [->|[->| ->]]; cbn; eauto.
Qed.

(** The output of the zipper loop holds what was there before and the
    two tails, each transaction once. *)
Lemma zipper_loop_perm (fuel : nat) (f1trs f2trs : list Transaction)
    (i1 i2 : Z) (trs out : list Transaction) :
  zipper_loop fuel f1trs f2trs (i1, i2, trs) = Ok out ->
  out ≡ₚ trs ++ drop (Z.to_nat i1) f1trs ++ drop (Z.to_nat i2) f2trs.
Proof.
  revert i1 i2 trs.
  induction fuel as [|fuel IH]; intros i1 i2 trs; cbn [zipper_loop]; [discriminate|].
  destruct ((i1 <? len f1trs) || (i2 <? len f2trs)) eqn:Hc.
  - pose proof (zipper_body_cases f1trs f2trs i1 i2 trs) as Hb.
    destruct (zipper_body f1trs f2trs (i1, i2, trs)) as [st'| | |]; cbn [bind]; try discriminate.
    destruct Hb as [(t1 & Ht1 & ->)|(t2 & Ht2 & ->)]; intros H; apply IH in H; rewrite H.
    + rewrite (index_drop _ _ _ Ht1), <- app_assoc. reflexivity.
    + rewrite (index_drop _ _ _ Ht2), <- app_assoc. apply Permutation_app_head.
      simpl. apply Permutation_middle.
  - apply orb_false_iff in Hc as [H1 H2]. apply Z.ltb_ge in H1, H2.
    intros [= ->]. unfold len in *.
    rewrite !drop_ge, !app_nil_r by lia. reflexivity.
Qed.

(** ** Conservation *)

Lemma find_sync_hit (f1trs f2trs : list Transaction) (syncPoint : Z) :
  find_sync f1trs f2trs = Ok syncPoint -> 0 <= syncPoint ->
  syncPoint < len f1trs
  /\ exists t1 t2, index f1trs syncPoint = Ok t1 /\ index f2trs 0 = Ok t2
                   /\ Code t1 = Code t2.
Proof.
  intros Hs Hge. destruct f2trs as [|t2 rest].
  - destruct f1trs as [|t1 f1trs].
    + rewrite find_sync_empty_master in Hs. injection Hs as <-. lia.
    + rewrite find_sync_empty_source in Hs. discriminate.
  - destruct (find_sync_spec f1trs t2 rest) as (r & Hr & Hb & Hhit & _).
    rewrite Hr in Hs. injection Hs as ->.
    split; [lia|]. destruct (Hhit Hge) as (t1 & Ht1 & Hc).
    exists t1, t2. auto.
Qed.

(** C1 (amended): when the scan finds a sync point and the merge
    succeeds, the output has as many transactions as the two files
    together less the overlap, and it is a rearrangement of the master
    followed by the source without its overlap. So every transaction of
    the master and every transaction of the source after the overlap is
    in the output, as often as it occurs there and no more, and nothing
    else is; a transaction of the source inside the overlap is there
    only as the master's transaction of the same code, and a record
    that the master and the rest of the source both hold is there once
    for each of the two. *)
Theorem merge_conservation (f1trs f2trs : list Transaction) (syncPoint : Z)
    (out : list Transaction) :
  find_sync f1trs f2trs = Ok syncPoint -> 0 <= syncPoint ->
  merge_transactions f1trs f2trs = Ok out ->
  exists overlap,
    is_overlap f1trs f2trs syncPoint overlap
    /\ overlap <= len f2trs
    /\ len out = len f1trs + len f2trs - overlap
    /\ out ≡ₚ f1trs ++ drop (Z.to_nat overlap) f2trs
    /\ (forall t, t ∈ f1trs -> t ∈ out)
    /\ (forall t, t ∈ drop (Z.to_nat overlap) f2trs -> t ∈ out)
    /\ (forall t, t ∈ take (Z.to_nat overlap) f2trs ->
          exists t', t' ∈ f1trs /\ t' ∈ out /\ Code t' = Code t)
    /\ (forall t, t ∈ out -> t ∈ f1trs \/ t ∈ drop (Z.to_nat overlap) f2trs).
Proof.
  intros Hs Hge Hm.
  destruct (find_sync_hit _ _ _ Hs Hge) as (Hlt & t1 & t2 & Ht1 & Ht2 & Hc0).
  pose proof (index_Ok_inv _ _ _ Ht2) as [R2 _].
  unfold merge_transactions in Hm. rewrite Hs in Hm. cbn [bind] in Hm.
  unfold common_run in Hm. rewrite (find_sync_below_len _ _ _ Hs) in Hm.
  cbv zeta in Hm.
  destruct (prefix_loop_spec (loop_bound f1trs f2trs) f1trs syncPoint 0 [])
    as (pre & Hpre & Hpre_eq); [lia|lia|unfold loop_bound, len in *; lia|].
  rewrite Hpre in Hm. cbn [bind] in Hm.
  pose proof (overlap_loop_spec (loop_bound f1trs f2trs) f1trs f2trs
                (syncPoint + 1) 1 pre) as Hw.
  destruct (overlap_loop _ f1trs f2trs (syncPoint + 1, 1, pre))
    as [[[j1 j2] mid]| | |]; cbn [bind] in Hm; try discriminate.
  destruct Hw as (k & Hk & -> & -> & Hmid & Hcodes & Hl1 & Hl2 & Hstop).
  { unfold loop_bound, len in *. lia. }
  apply zipper_loop_perm in Hm.
  rewrite app_assoc, Hmid, Hpre_eq in Hm. simpl in Hm.
  assert (Hperm : out ≡ₚ f1trs ++ drop (Z.to_nat (1 + k)) f2trs) by exact Hm.
  assert (Hov : forall d, 0 <= d < 1 + k ->
            exists u1 u2, index f1trs (syncPoint + d) = Ok u1
                          /\ index f2trs d = Ok u2 /\ Code u1 = Code u2).
  { intros d Hd. destruct (Z.eq_dec d 0) as [->|Hd0].
    - exists t1, t2. rewrite Z.add_0_r. auto.
    - destruct (Hcodes (d - 1)) as (u1 & u2 & Hu1 & Hu2 & Hu); [lia|].
      exists u1, u2.
      replace (syncPoint + d) with (syncPoint + 1 + (d - 1)) by lia.
      replace d with (1 + (d - 1)) at 2 by lia. auto. }
  exists (1 + k). repeat split.
  - lia.
  - exact Hov.
  - replace (syncPoint + (1 + k)) with (syncPoint + 1 + k) by lia. exact Hstop.
  - lia.
  - unfold len in *. rewrite (Permutation_length Hperm), length_app, length_drop. lia.
  - exact Hperm.
  - intros t Ht. rewrite Hperm. apply elem_of_app. left. exact Ht.
  - intros t Ht. rewrite Hperm. apply elem_of_app. right. exact Ht.
  - intros t Ht. apply elem_of_take in Ht as (j & Hj & Hjk).
    destruct (Hov (Z.of_nat j)) as (u1 & u2 & Hu1 & Hu2 & Hu); [lia|].
    apply index_Ok_inv in Hu1 as [_ Hu1], Hu2 as [_ Hu2].
    rewrite Nat2Z.id in Hu2. rewrite Hj in Hu2. injection Hu2 as <-.
    assert (Hin : u1 ∈ f1trs) by (apply list_elem_of_lookup; eauto).
    exists u1. split; [exact Hin|]. split; [|exact Hu].
    rewrite Hperm. apply elem_of_app. left. exact Hin.
  - intros t Ht. rewrite Hperm in Ht. apply elem_of_app in Ht. exact Ht.
Qed.

Ltac absent :=
  let H := fresh in
  intros H;
  repeat (apply elem_of_cons in H as [H|H]; [discriminate H|]);
  apply elem_of_nil in H; exact H.

(** C1 (as stated, fails): the master and the source agree on the code
    "B" of their first transactions, which differ otherwise, and both
    hold the record "X" after it. The sync point is 0 and the merge
    succeeds; neither file repeats a transaction. The first transaction
    of the source is not in the output, and the record "X" is there
    twice. *)
Lemma overlap_copy_and_repeat :
  let x := txk "X" 2 "ID" "a" in
  let w := txk "W" 2 "ID" "z" in
  let b2 := txk "B" 2 "ID" "x" in
  let f1trs := [tx "B" 1; x; tx "Y" 3] in
  let f2trs := [b2; w; x] in
  let out := [tx "B" 1; x; w; x; tx "Y" 3] in
  find_sync f1trs f2trs = Ok 0
  /\ merge_transactions f1trs f2trs = Ok out
  /\ NoDup f1trs /\ NoDup f2trs
  /\ (b2 ∈ f2trs) /\ (b2 ∉ out)
  /\ ~ NoDup out.
Proof.
  cbv zeta.
  split; [vm_compute; reflexivity|].
  split; [vm_compute; reflexivity|].
  split; [repeat (apply NoDup_cons; split; [absent|]); apply NoDup_nil; exact I|].
  split; [repeat (apply NoDup_cons; split; [absent|]); apply NoDup_nil; exact I|].
  split; [apply elem_of_cons; left; reflexivity|].
  split; [absent|].
  intros H. apply NoDup_cons in H as [_ H]. apply NoDup_cons in H as [H _].
  apply H. apply elem_of_cons. right. apply elem_of_cons. left. reflexivity.
Qed.

(** ** The transition system is deterministic *)

Lemma tie_rel_det (t1 t2 : Transaction) (keys : list string) (v1 v2 : verdict) :
  tie_rel t1 t2 keys v1 -> tie_rel t1 t2 keys v2 -> v1 = v2.
Proof.
  intros H1. revert v2.
  induction H1; intros v2 H2; inversion H2; subst; try lia; auto.
Qed.

Lemma tie_rel_cascade (t1 t2 : Transaction) (keys : list string) :
  tie_rel t1 t2 keys (cascade (KVPairs t1) (KVPairs t2) keys).
Proof.
  induction keys as [|key keys IH]; simpl; [constructor|].
  pose proof (chooseAB_key_rule (KVPairs t1) (KVPairs t2) key) as Hk.
  destruct (key_rule (KVPairs t1) (KVPairs t2) key).
  - apply tie_first. lia.
  - apply tie_second. lia.
  - apply tie_next; [exact Hk|exact IH].
Qed.

Ltac same_reads :=
  repeat match goal with
  | H1 : index ?s ?i = Ok ?x, H2 : index ?s ?i = Ok ?y |- _ =>
      rewrite H1 in H2; injection H2 as <-
  | H1 : index ?s ?i = Ok _, H2 : index ?s ?i = Panic |- _ =>
      rewrite H1 in H2; discriminate H2
  end.

Lemma step_det (f1trs f2trs : list Transaction) (c c1 c2 : config) :
  step f1trs f2trs c c1 -> step f1trs f2trs c c2 -> c1 = c2.
Proof.
  intros H1 H2.
  inversion H1; subst; inversion H2; subst; same_reads;
    try reflexivity; try lia; try congruence.
  match goal with
  | Ha : tie_rel ?t1 ?t2 _ ?v, Hb : tie_rel ?t1 ?t2 _ ?w |- _ =>
      rewrite (tie_rel_det _ _ _ _ _ Ha Hb); reflexivity
  end.
Qed.

Lemma halt_final (f1trs f2trs : list Transaction) (r : result (list Transaction))
    (c : config) :
  ~ step f1trs f2trs (Halt r) c.
Proof. intros H. inversion H. Qed.

Lemma halting_det (f1trs f2trs : list Transaction) (c : config)
    (r1 r2 : result (list Transaction)) :
  rtc (step f1trs f2trs) c (Halt r1) -> rtc (step f1trs f2trs) c (Halt r2) -> r1 = r2.
Proof.
  intros H1. remember (Halt r1) as h eqn:Hh. revert Hh.
  induction H1 as [c|c c' h Hcc' Hrest IH]; intros -> H2.
  - inversion H2 as [|? c'' ? Hs _]; subst; [reflexivity|].
    exfalso. exact (halt_final _ _ _ _ Hs).
  - inversion H2 as [|? c'' ? Hs Hrest2]; subst.
    + exfalso. exact (halt_final _ _ _ _ Hcc').
    + rewrite <- (step_det _ _ _ _ _ Hcc' Hs) in Hrest2. auto.
Qed.

(** ** The loops run as the transition system does, within the bound *)

Lemma sync_loop_ge (fuel : nat) (f1trs f2trs : list Transaction) (syncPoint r : Z) :
  -1 <= syncPoint -> sync_loop fuel f1trs f2trs syncPoint = Ok r -> -1 <= r.
Proof.
  revert syncPoint. induction fuel as [|fuel IH]; intros sp Hsp; simpl; [discriminate|].
  destruct (Z.leb_spec 0 sp); [|intros [= ->]; lia].
  destruct (index f1trs sp) as [t1| | |]; simpl; try discriminate.
  destruct (index f2trs 0) as [t2| | |]; simpl; try discriminate.
  destruct (String.eqb (Code t1) (Code t2)); [intros [= ->]; lia|].
  apply IH. lia.
Qed.

Lemma sync_loop_runs (fuel : nat) (f1trs f2trs : list Transaction) (syncPoint : Z) :
  Z.max 0 (syncPoint + 1) < Z.of_nat fuel ->
  match sync_loop fuel f1trs f2trs syncPoint with
  | Ok r => rtc (step f1trs f2trs) (AtSync syncPoint) (AtCheck r)
  | Panic => rtc (step f1trs f2trs) (AtSync syncPoint) (Halt Panic)
  | Exit _ => False
  | OutOfFuel => False
  end.
Proof.
  revert syncPoint. induction fuel as [|fuel IH]; intros sp Hf; [lia|].
  simpl. destruct (Z.leb_spec 0 sp) as [Hge|Hlt].
  - destruct (index_cases f1trs sp) as [[t1 Ht1]|Hp1]; rewrite ?Ht1, ?Hp1; cbn [bind].
    2: { apply rtc_once. apply step_sync_panic1; assumption. }
    destruct (index_cases f2trs 0) as [[t2 Ht2]|Hp2]; rewrite ?Ht2, ?Hp2; cbn [bind].
    2: { apply rtc_once. eapply step_sync_panic2; eassumption. }
    destruct (String.eqb_spec (Code t1) (Code t2)) as [Heq|Hne].
    + apply rtc_once. eapply step_sync_break; eassumption.
    + specialize (IH (sp - 1)).
      assert (Hs : step f1trs f2trs (AtSync sp) (AtSync (sp - 1)))
        by (eapply step_sync_next; eassumption).
      destruct (sync_loop fuel f1trs f2trs (sp - 1)); try (apply IH; lia);
        (eapply rtc_l; [exact Hs|apply IH; lia]).
  - apply rtc_once. apply step_sync_done. lia.
Qed.

Lemma prefix_loop_runs (fuel : nat) (f1trs f2trs : list Transaction)
    (syncPoint i : Z) (trs : list Transaction) :
  Z.max 0 (syncPoint + 1 - i) < Z.of_nat fuel ->
  match prefix_loop fuel f1trs syncPoint i trs with
  | Ok out => rtc (step f1trs f2trs) (AtPrefix syncPoint i trs)
                  (AtOverlap (syncPoint + 1, 1, out))
  | Panic => rtc (step f1trs f2trs) (AtPrefix syncPoint i trs) (Halt Panic)
  | Exit _ => False
  | OutOfFuel => False
  end.
Proof.
  revert i trs. induction fuel as [|fuel IH]; intros i trs Hf; [lia|].
  simpl. destruct (Z.leb_spec i syncPoint) as [Hle|Hgt].
  - destruct (index_cases f1trs i) as [[t Ht]|Hp]; rewrite ?Ht, ?Hp; cbn [bind].
    2: { apply rtc_once. apply step_prefix_panic; assumption. }
    specialize (IH (i + 1) (trs ++ [t])).
    assert (Hs : step f1trs f2trs (AtPrefix syncPoint i trs)
                   (AtPrefix syncPoint (i + 1) (trs ++ [t])))
      by (apply step_prefix_next; assumption).
    destruct (prefix_loop fuel f1trs syncPoint (i + 1) (trs ++ [t]));
      try (apply IH; lia); (eapply rtc_l; [exact Hs|apply IH; lia]).
  - apply rtc_once. apply step_prefix_done. lia.
Qed.

Lemma overlap_loop_runs (fuel : nat) (f1trs f2trs : list Transaction)
    (i1 i2 : Z) (trs : list Transaction) :
  Z.max 0 (len f1trs - i1) < Z.of_nat fuel ->
  match overlap_loop fuel f1trs f2trs (i1, i2, trs) with
  | Ok st' => rtc (step f1trs f2trs) (AtOverlap (i1, i2, trs)) (AtZipper st')
  | Panic => rtc (step f1trs f2trs) (AtOverlap (i1, i2, trs)) (Halt Panic)
  | Exit _ => False
  | OutOfFuel => False
  end.
Proof.
  revert i1 i2 trs. induction fuel as [|fuel IH]; intros i1 i2 trs Hf; [lia|].
  simpl. destruct ((i1 <? len f1trs) || (i2 <? len f2trs)) eqn:Hc.
  - assert (Hc' : i1 < len f1trs \/ i2 < len f2trs).
    { apply orb_true_iff in Hc as [H|H]; apply Z.ltb_lt in H; auto. }
    destruct (index_cases f1trs i1) as [[t1 Ht1]|Hp1]; rewrite ?Ht1, ?Hp1; cbn [bind].
    2: { apply rtc_once. apply step_overlap_panic1; assumption. }
    destruct (index_cases f2trs i2) as [[t2 Ht2]|Hp2]; rewrite ?Ht2, ?Hp2; cbn [bind].
    2: { apply rtc_once. eapply step_overlap_panic2; eassumption. }
    pose proof (index_Ok_inv _ _ _ Ht1) as [R1 _].
    destruct (String.eqb_spec (Code t1) (Code t2)) as [Heq|Hne]; cbn [negb].
    + specialize (IH (i1 + 1) (i2 + 1) (trs ++ [t1])).
      assert (Hs : step f1trs f2trs (AtOverlap (i1, i2, trs))
                     (AtOverlap (i1 + 1, i2 + 1, trs ++ [t1])))
        by (eapply step_overlap_next; eassumption).
      destruct (overlap_loop fuel f1trs f2trs (i1 + 1, i2 + 1, trs ++ [t1]));
        try (apply IH; lia); (eapply rtc_l; [exact Hs|apply IH; lia]).
    + apply rtc_once. eapply step_overlap_break; eassumption.
  - apply orb_false_iff in Hc as [H1 H2]. apply Z.ltb_ge in H1, H2.
    apply rtc_once. apply step_overlap_done; assumption.
Qed.

(** One turn of the zipper loop is one transition. *)
Lemma zipper_body_step (f1trs f2trs : list Transaction) (i1 i2 : Z)
    (trs : list Transaction) :
  (i1 <? len f1trs) || (i2 <? len f2trs) = true ->
  match zipper_body f1trs f2trs (i1, i2, trs) with
  | Ok st' => step f1trs f2trs (AtZipper (i1, i2, trs)) (AtZipper st')
  | Panic => step f1trs f2trs (AtZipper (i1, i2, trs)) (Halt Panic)
  | Exit msg => step f1trs f2trs (AtZipper (i1, i2, trs)) (Halt (Exit msg))
  | OutOfFuel => False
  end.
Proof.
  intros Hc. unfold zipper_body.
  destruct (Z.leb_spec (len f1trs) i1) as [E1|L1].
  { assert (L2 : i2 < len f2trs).
    { apply orb_true_iff in Hc as [H|H]; apply Z.ltb_lt in H; lia. }
    destruct (index_cases f2trs i2) as [[t2 Ht2]|Hp]; rewrite ?Ht2, ?Hp; cbn.
    - apply step_zipper_rest2; assumption.
    - apply step_zipper_rest2_panic; assumption. }
  destruct (Z.leb_spec (len f2trs) i2) as [E2|L2].
  { destruct (index_cases f1trs i1) as [[t1 Ht1]|Hp]; rewrite ?Ht1, ?Hp; cbn.
    - apply step_zipper_rest1; assumption.
    - apply step_zipper_panic1; assumption. }
  destruct (index_cases f1trs i1) as [[t1 Ht1]|Hp]; rewrite ?Ht1, ?Hp; cbn [bind].
  2: { apply step_zipper_panic1; assumption. }
  destruct (index_cases f2trs i2) as [[t2 Ht2]|Hp]; rewrite ?Ht2, ?Hp; cbn [bind].
  2: { eapply step_zipper_panic2; eassumption. }
  destruct (Z.ltb_spec (Date t1) (Date t2)) as [Hb|Hnb].
  { cbn. eapply step_zipper_before; eassumption. }
  destruct (Z.ltb_spec (Date t2) (Date t1)) as [Ha|Hna].
  { cbn. eapply step_zipper_after; eassumption. }
  rewrite tie_break_cascade.
  assert (Hs : step f1trs f2trs (AtZipper (i1, i2, trs))
                 (after_tie (i1, i2, trs) t1 t2
                    (cascade (KVPairs t1) (KVPairs t2) tie_keys))).
  { eapply step_zipper_tie; try eassumption; [lia|apply tie_rel_cascade]. }
  destruct (cascade (KVPairs t1) (KVPairs t2) tie_keys); exact Hs.
Qed.

Lemma zipper_loop_runs (fuel : nat) (f1trs f2trs : list Transaction)
    (i1 i2 : Z) (trs : list Transaction) :
  Z.max 0 (len f1trs - i1) + Z.max 0 (len f2trs - i2) < Z.of_nat fuel ->
  zipper_loop fuel f1trs f2trs (i1, i2, trs) <> OutOfFuel
  /\ rtc (step f1trs f2trs) (AtZipper (i1, i2, trs))
         (Halt (zipper_loop fuel f1trs f2trs (i1, i2, trs))).
Proof.
  revert i1 i2 trs. induction fuel as [|fuel IH]; intros i1 i2 trs Hf; [lia|].
  cbn [zipper_loop]. destruct ((i1 <? len f1trs) || (i2 <? len f2trs)) eqn:Hc.
  - pose proof (zipper_body_step f1trs f2trs i1 i2 trs Hc) as Hs.
    pose proof (zipper_body_cases f1trs f2trs i1 i2 trs) as Hb.
    destruct (zipper_body f1trs f2trs (i1, i2, trs)) as [[[j1 j2] out]| |msg|];
      cbn [bind]; try (split; [discriminate|apply rtc_once; exact Hs]); [|contradiction].
    destruct (IH j1 j2 out) as [Hne Hrun].
    + destruct Hb as [(t1 & Ht1 & [= -> -> ->])|(t2 & Ht2 & [= -> -> ->])].
      * apply index_Ok_inv in Ht1. lia.
      * apply index_Ok_inv in Ht2. lia.
    + split; [exact Hne|]. eapply rtc_l; [exact Hs|exact Hrun].
  - apply orb_false_iff in Hc as [H1 H2]. apply Z.ltb_ge in H1, H2.
    split; [discriminate|]. apply rtc_once. apply step_zipper_done; assumption.
Qed.

(** The merge stays within its loop bound, and it is the run of the
    transition system. *)
Lemma merge_transactions_runs (f1trs f2trs : list Transaction) :
  merge_transactions f1trs f2trs <> OutOfFuel
  /\ merges_to f1trs f2trs (merge_transactions f1trs f2trs).
Proof.
  unfold merges_to, merge_transactions, find_sync.
  pose proof (len_nonneg f1trs) as Hl1. pose proof (len_nonneg f2trs) as Hl2.
  assert (Hbound : Z.of_nat (loop_bound f1trs f2trs) = len f1trs + len f2trs + 1)
    by (unfold loop_bound, len; lia).
  pose proof (sync_loop_runs (loop_bound f1trs f2trs) f1trs f2trs (len f1trs - 1)) as Hsync.
  pose proof (sync_loop_le (loop_bound f1trs f2trs) f1trs f2trs (len f1trs - 1)) as Hle.
  pose proof (sync_loop_ge (loop_bound f1trs f2trs) f1trs f2trs (len f1trs - 1)) as Hge.
  destruct (sync_loop _ f1trs f2trs (len f1trs - 1)) as [r| | |]; cbn [bind];
    try (split; [discriminate|apply Hsync; lia]); try (exfalso; apply Hsync; lia).
  specialize (Hle r eq_refl). specialize (Hge r ltac:(lia) eq_refl).
  unfold common_run. destruct (Z.eqb_spec r (len f1trs)) as [Heq|Hne]; [lia|].
  cbv zeta.
  assert (Hcheck : rtc (step f1trs f2trs) (AtSync (len f1trs - 1)) (AtPrefix r 0 [])).
  { eapply rtc_r; [apply Hsync; lia|]. apply step_check_pass. exact Hne. }
  pose proof (prefix_loop_runs (loop_bound f1trs f2trs) f1trs f2trs r 0 []) as Hpre.
  destruct (prefix_loop _ f1trs r 0 []) as [pre| | |]; cbn [bind];
    try (split; [discriminate|etrans; [exact Hcheck|apply Hpre; lia]]);
    try (exfalso; apply Hpre; lia).
  pose proof (overlap_loop_runs (loop_bound f1trs f2trs) f1trs f2trs (r + 1) 1 pre) as Hov.
  pose proof (overlap_loop_spec (loop_bound f1trs f2trs) f1trs f2trs (r + 1) 1 pre) as Hw.
  destruct (overlap_loop _ f1trs f2trs (r + 1, 1, pre)) as [[[j1 j2] mid]| | |]; cbn [bind];
    try (split; [discriminate|etrans; [exact Hcheck|etrans; [apply Hpre; lia|apply Hov; lia]]]);
    try (exfalso; apply Hov; lia).
  destruct Hw as (k & Hk & -> & -> & _); [lia|].
  destruct (zipper_loop_runs (loop_bound f1trs f2trs) f1trs f2trs (r + 1 + k) (1 + k) mid)
    as [Hne' Hrun]; [lia|].
  split; [exact Hne'|].
  etrans; [exact Hcheck|]. etrans; [apply Hpre; lia|]. etrans; [apply Hov; lia|exact Hrun].
Qed.

(** The run reaches the zipper loop in the state the common run ends in. *)
Lemma common_run_reaches (f1trs f2trs : list Transaction) (syncPoint : Z) (st : state) :
  find_sync f1trs f2trs = Ok syncPoint ->
  common_run f1trs f2trs syncPoint = Ok st ->
  rtc (step f1trs f2trs) (AtSync (len f1trs - 1)) (AtZipper st).
Proof.
  intros Hs Hc. unfold find_sync in Hs.
  pose proof (len_nonneg f1trs) as Hl1. pose proof (len_nonneg f2trs) as Hl2.
  assert (Hbound : Z.of_nat (loop_bound f1trs f2trs) = len f1trs + len f2trs + 1)
    by (unfold loop_bound, len; lia).
  pose proof (sync_loop_runs (loop_bound f1trs f2trs) f1trs f2trs (len f1trs - 1)) as Hsync.
  pose proof (sync_loop_le _ _ _ _ _ Hs) as Hle.
  assert (Hge : -1 <= syncPoint) by (eapply sync_loop_ge; [|exact Hs]; lia).
  rewrite Hs in Hsync. unfold common_run in Hc.
  destruct (Z.eqb_spec syncPoint (len f1trs)) as [Heq|Hne]; [lia|]. cbv zeta in Hc.
  pose proof (prefix_loop_runs (loop_bound f1trs f2trs) f1trs f2trs syncPoint 0 []) as Hpre.
  destruct (prefix_loop _ f1trs syncPoint 0 []) as [pre| | |]; cbn [bind] in Hc;
    try discriminate.
  pose proof (overlap_loop_runs (loop_bound f1trs f2trs) f1trs f2trs
                (syncPoint + 1) 1 pre) as Hov.
  rewrite Hc in Hov.
  etrans; [apply Hsync; lia|].
  eapply rtc_l; [apply step_check_pass; exact Hne|].
  etrans; [apply Hpre; lia|apply Hov; lia].
Qed.

(** ** Failure of the tie-break *)

Lemma cascade_neither (a b : gmap string string) (keys : list string) :
  Forall (fun key => key_rule a b key = Neither) keys ->
  cascade a b keys = Neither.
Proof.
  induction 1 as [|key keys Hk _ IH]; simpl; [reflexivity|].
  rewrite Hk. exact IH.
Qed.

(** The destination is created only when the merge of the transactions
    has returned its result. *)
Lemma create_after_merge (Compare : Directive -> Directive -> bool)
    (env : environment) (dest : string)
    (f1trs : list Transaction) (f1drs : list Directive)
    (f2trs : list Transaction) (f2drs : list Directive) (e : event) :
  e ∈ main Compare env dest f1trs f1drs f2trs f2drs ->
  (exists f, e = OsCreate f) \/ (exists trs drs, e = WriteLedgerFile trs drs) ->
  exists out, merge_transactions f1trs f2trs = Ok out.
Proof.
  unfold main, finish. cbv zeta.
  destruct (merge_transactions f1trs f2trs) as [out| |msg|]; [eauto| | |];
    intros Hin Hkind; exfalso.
  - apply list_elem_of_singleton in Hin. subst e.
    destruct Hkind as [[f Hf]|(trs & drs & Hf)]; discriminate.
  - apply elem_of_cons in Hin as [->|Hin];
      [|apply list_elem_of_singleton in Hin; subst e];
      destruct Hkind as [[f Hf]|(trs & drs & Hf)]; discriminate.
  - apply elem_of_nil in Hin. exact Hin.
Qed.

(** C5: when the zipper loop comes to two transactions of the same date
    on which none of "ID", "RID", "FITID" decides, the merge ends with
    the error message and exit status 1; the destination is neither
    created nor written, as it never is before the merge has succeeded. *)
Theorem unorderable_pair_aborts (Compare : Directive -> Directive -> bool)
    (env : environment) (dest : string)
    (f1trs : list Transaction) (f1drs : list Directive)
    (f2trs : list Transaction) (f2drs : list Directive)
    (i1 i2 : Z) (trs : list Transaction) (t1 t2 : Transaction) :
  rtc (step f1trs f2trs) (AtSync (len f1trs - 1)) (AtZipper (i1, i2, trs)) ->
  index f1trs i1 = Ok t1 ->
  index f2trs i2 = Ok t2 ->
  Date t1 = Date t2 ->
  Forall (fun key => key_rule (KVPairs t1) (KVPairs t2) key = Neither) tie_keys ->
  merge_transactions f1trs f2trs = Exit unorderable_msg
  /\ main Compare env dest f1trs f1drs f2trs f2drs
     = [Println unorderable_msg; OsExit 1]
  /\ (forall e, e ∈ main Compare env dest f1trs f1drs f2trs f2drs ->
        (forall f, e <> OsCreate f) /\ (forall out drs, e <> WriteLedgerFile out drs))
  /\ (forall g1 g2 e,
        e ∈ main Compare env dest g1 f1drs g2 f2drs ->
        (exists f, e = OsCreate f) \/ (exists out drs, e = WriteLedgerFile out drs) ->
        exists out, merge_transactions g1 g2 = Ok out).
Proof.
  intros Hreach H1 H2 Hd Hkeys.
  pose proof (index_Ok_inv _ _ _ H1) as [R1 _].
  pose proof (index_Ok_inv _ _ _ H2) as [R2 _].
  assert (Htie : tie_rel t1 t2 tie_keys Neither).
  { rewrite <- (cascade_neither _ _ _ Hkeys). apply tie_rel_cascade. }
  assert (Hstep : step f1trs f2trs (AtZipper (i1, i2, trs)) (Halt (Exit unorderable_msg))).
  { apply (step_zipper_tie f1trs f2trs i1 i2 trs t1 t2 Neither); auto; lia. }
  assert (Hm : merge_transactions f1trs f2trs = Exit unorderable_msg).
  { destruct (merge_transactions_runs f1trs f2trs) as [_ Hrun].
    apply (halting_det f1trs f2trs (AtSync (len f1trs - 1))); [exact Hrun|].
    eapply rtc_r; [exact Hreach|exact Hstep]. }
  assert (Hmain : main Compare env dest f1trs f1drs f2trs f2drs
                  = [Println unorderable_msg; OsExit 1]).
  { unfold main. cbv zeta. rewrite Hm. reflexivity. }
  split; [exact Hm|]. split; [exact Hmain|]. split.
  - rewrite Hmain. intros e He.
    apply elem_of_cons in He as [->|He];
      [|apply list_elem_of_singleton in He; subst e]; split; intros; discriminate.
  - intros g1 g2 e. apply create_after_merge.
Qed.

(** ** Determinism *)

(** The program is a run of the transition system. *)
Lemma main_runs (Compare : Directive -> Directive -> bool)
    (env : environment) (dest : string)
    (f1trs : list Transaction) (f1drs : list Directive)
    (f2trs : list Transaction) (f2drs : list Directive) :
  runs Compare env dest f1trs f1drs f2trs f2drs
       (main Compare env dest f1trs f1drs f2trs f2drs).
Proof.
  unfold main. cbv zeta. constructor. apply merge_transactions_runs.
Qed.

Lemma runs_value (Compare : Directive -> Directive -> bool)
    (env : environment) (dest : string)
    (f1trs : list Transaction) (f1drs : list Directive)
    (f2trs : list Transaction) (f2drs : list Directive) (o : list event) :
  main Compare env dest f1trs f1drs f2trs f2drs = o ->
  runs Compare env dest f1trs f1drs f2trs f2drs o.
Proof. intros <-. apply main_runs. Qed.

(** C8: two runs of the program on the same parsed files, with the same
    answers of the file system, do the same: they hand the same
    transactions and directives to the serializer, or fail alike. *)
Theorem merge_deterministic (Compare : Directive -> Directive -> bool)
    (env : environment) (dest : string)
    (f1trs : list Transaction) (f1drs : list Directive)
    (f2trs : list Transaction) (f2drs : list Directive)
    (o1 o2 : list event) :
  runs Compare env dest f1trs f1drs f2trs f2drs o1 ->
  runs Compare env dest f1trs f1drs f2trs f2drs o2 ->
  o1 = o2.
Proof.
  intros [r1 Hr1] [r2 Hr2].
  rewrite (halting_det _ _ _ _ _ Hr1 Hr2). reflexivity.
Qed.

(** ** The error of line 93 *)

Lemma zipper_loop_exit (fuel : nat) (f1trs f2trs : list Transaction)
    (st : state) (msg : string) :
  zipper_loop fuel f1trs f2trs st = Exit msg -> msg = unorderable_msg.
Proof.
  revert st. induction fuel as [|fuel IH]; intros [[i1 i2] trs];
    cbn [zipper_loop]; [discriminate|].
  destruct ((i1 <? len f1trs) || (i2 <? len f2trs)); [|discriminate].
  pose proof (zipper_body_cases f1trs f2trs i1 i2 trs) as Hb.
  destruct (zipper_body f1trs f2trs (i1, i2, trs)) as [st'| |m|]; cbn [bind];
    try discriminate.
  - apply IH.
  - intros [= <-]. exact Hb.
Qed.

(** No input makes the program print "No sync point found!". *)
Lemma no_sync_exit_unreachable (f1trs f2trs : list Transaction) :
  merge_transactions f1trs f2trs <> Exit no_sync_msg.
Proof.
  unfold merge_transactions. intros H.
  destruct (find_sync f1trs f2trs) as [r| | |] eqn:Hs; cbn [bind] in H; try discriminate.
  - unfold common_run in H. rewrite (find_sync_below_len _ _ _ Hs) in H. cbv zeta in H.
    pose proof (len_nonneg f1trs) as Hl1. pose proof (len_nonneg f2trs) as Hl2.
    assert (Hbound : Z.of_nat (loop_bound f1trs f2trs) = len f1trs + len f2trs + 1)
      by (unfold loop_bound, len; lia).
    assert (Hle : r <= len f1trs - 1) by (eapply sync_loop_le; exact Hs).
    assert (Hge : -1 <= r) by (eapply sync_loop_ge; [|exact Hs]; lia).
    pose proof (prefix_loop_runs (loop_bound f1trs f2trs) f1trs f2trs r 0 []) as Hpre.
    destruct (prefix_loop _ f1trs r 0 []) as [pre| | |]; cbn [bind] in H;
      try discriminate; [|apply Hpre; lia].
    pose proof (overlap_loop_spec (loop_bound f1trs f2trs) f1trs f2trs (r + 1) 1 pre) as Hw.
    destruct (overlap_loop _ f1trs f2trs (r + 1, 1, pre)) as [st| | |]; cbn [bind] in H;
      try discriminate; [|apply Hw; lia].
    apply zipper_loop_exit in H. discriminate.
  - unfold find_sync in Hs.
    pose proof (sync_loop_runs (loop_bound f1trs f2trs) f1trs f2trs (len f1trs - 1)) as Hr.
    rewrite Hs in Hr. apply Hr. unfold loop_bound, len. lia.
Qed.

(** ** Instances *)

Lemma merge_conservation_witness :
  let f1trs := [tx "A" 1; tx "B" 2; tx "C" 3] in
  let f2trs := [tx "B" 2; tx "D" 4] in
  let out := [tx "A" 1; tx "B" 2; tx "C" 3; tx "D" 4] in
  find_sync f1trs f2trs = Ok 1
  /\ 0 <= 1
  /\ merge_transactions f1trs f2trs = Ok out
  /\ exists overlap,
       is_overlap f1trs f2trs 1 overlap
       /\ overlap <= len f2trs
       /\ len out = len f1trs + len f2trs - overlap
       /\ out ≡ₚ f1trs ++ drop (Z.to_nat overlap) f2trs
       /\ (forall t, t ∈ f1trs -> t ∈ out)
       /\ (forall t, t ∈ drop (Z.to_nat overlap) f2trs -> t ∈ out)
       /\ (forall t, t ∈ take (Z.to_nat overlap) f2trs ->
             exists t', t' ∈ f1trs /\ t' ∈ out /\ Code t' = Code t)
       /\ (forall t, t ∈ out -> t ∈ f1trs \/ t ∈ drop (Z.to_nat overlap) f2trs).
Proof.
  cbv zeta.
  split; [vm_compute; reflexivity|].
  split; [lia|].
  split; [vm_compute; reflexivity|].
  apply (merge_conservation [tx "A" 1; tx "B" 2; tx "C" 3] [tx "B" 2; tx "D" 4] 1).
  - vm_compute; reflexivity.
  - lia.
  - vm_compute; reflexivity.
Defined.

Lemma zipper_tie_break_witness :
  let f1trs := [txk "C" 3 "ID" "x1"] in
  let f2trs := [txk "D" 3 "ID" "x2"] in
  index f1trs 0 = Ok (txk "C" 3 "ID" "x1")
  /\ index f2trs 0 = Ok (txk "D" 3 "ID" "x2")
  /\ Date (txk "C" 3 "ID" "x1") = Date (txk "D" 3 "ID" "x2")
  /\ tie_keys = ["ID"; "RID"; "FITID"]
  /\ zipper_body f1trs f2trs (0, 0, [])
     = match cascade (KVPairs (txk "C" 3 "ID" "x1")) (KVPairs (txk "D" 3 "ID" "x2"))
               tie_keys with
       | First => Ok (0 + 1, 0, [] ++ [txk "C" 3 "ID" "x1"])
       | Second => Ok (0, 0 + 1, [] ++ [txk "D" 3 "ID" "x2"])
       | Neither => Exit unorderable_msg
       end.
Proof.
  cbv zeta.
  split; [reflexivity|]. split; [reflexivity|]. split; [reflexivity|].
  apply (zipper_tie_break [txk "C" 3 "ID" "x1"] [txk "D" 3 "ID" "x2"] 0 0 []
           (txk "C" 3 "ID" "x1") (txk "D" 3 "ID" "x2")); reflexivity.
Defined.

Lemma unorderable_pair_aborts_witness :
  let f1trs := [tx "A" 1; tx "B" 2; tx "C" 3] in
  let f2trs := [tx "B" 2; tx "D" 3] in
  merge_transactions f1trs f2trs = Exit unorderable_msg
  /\ main Compare_content env_ok "out.ledger" f1trs [] f2trs []
     = [Println unorderable_msg; OsExit 1].
Proof.
  cbv zeta.
  destruct (unorderable_pair_aborts Compare_content env_ok "out.ledger"
              [tx "A" 1; tx "B" 2; tx "C" 3] [] [tx "B" 2; tx "D" 3] []
              2 1 [tx "A" 1; tx "B" 2] (tx "C" 3) (tx "D" 3))
    as (Hm & Hmain & _).
  - apply (common_run_reaches _ _ 1); vm_compute; reflexivity.
  - reflexivity.
  - reflexivity.
  - reflexivity.
  - repeat constructor.
  - split; [exact Hm|exact Hmain].
Defined.

Lemma merge_deterministic_witness :
  let f1trs := [tx "A" 1; tx "B" 2; tx "C" 3] in
  let f2trs := [tx "B" 2; tx "D" 4] in
  let d := {| Content := "account Assets"; FoundBefore := 5 |} in
  main Compare_content env_ok "out.ledger" f1trs [d] f2trs [d]
  = [OsCreate "out.ledger";
     WriteLedgerFile [tx "A" 1; tx "B" 2; tx "C" 3; tx "D" 4] [d];
     Close].
Proof.
  cbv zeta.
  apply (merge_deterministic Compare_content env_ok "out.ledger"
           [tx "A" 1; tx "B" 2; tx "C" 3]
           [{| Content := "account Assets"; FoundBefore := 5 |}]
           [tx "B" 2; tx "D" 4]
           [{| Content := "account Assets"; FoundBefore := 5 |}]).
  - apply main_runs.
  - apply runs_value. vm_compute. reflexivity.
Defined.

(** * Further properties of the code *)

(** ** chooseAB as an order on the values of a key *)

Lemma ascii_compare_lt_trans (a b c : Ascii.ascii) :
  Ascii.compare a b = Lt -> Ascii.compare b c = Lt -> Ascii.compare a c = Lt.
Proof.
  unfold Ascii.compare. rewrite !N.compare_lt_iff. apply N.lt_trans.
Qed.

Lemma string_compare_lt_trans (s t u : string) :
  String.compare s t = Lt -> String.compare t u = Lt -> String.compare s u = Lt.
Proof.
  revert t u. induction s as [|a s IH]; intros [|b t] [|c u]; simpl;
    try discriminate; auto.
  destruct (Ascii.compare a b) eqn:Hab; try discriminate;
    destruct (Ascii.compare b c) eqn:Hbc; try discriminate.
  - apply Ascii.compare_eq_iff in Hab. subst b. rewrite Hbc. apply IH.
  - apply Ascii.compare_eq_iff in Hab. subst b. rewrite Hbc. reflexivity.
  - apply Ascii.compare_eq_iff in Hbc. subst c. rewrite Hab. reflexivity.
  - rewrite (ascii_compare_lt_trans _ _ _ Hab Hbc). reflexivity.
Qed.

Lemma string_ltb_irrefl (s : string) : String.ltb s s = false.
Proof.
  unfold String.ltb.
  destruct (String.compare s s) eqn:Hc; try reflexivity.
  pose proof (String.compare_antisym s s) as Ha. rewrite Hc in Ha. discriminate.
Qed.

Lemma string_ltb_trans (s t u : string) :
  String.ltb s t = true -> String.ltb t u = true -> String.ltb s u = true.
Proof.
  unfold String.ltb.
  destruct (String.compare s t) eqn:Hst; try discriminate.
  destruct (String.compare t u) eqn:Htu; try discriminate.
  rewrite (string_compare_lt_trans _ _ _ Hst Htu). reflexivity.
Qed.

(** X1: [chooseAB] answers 0 exactly when the two maps agree on the key:
    both lack it, or both hold the same value. *)
Theorem chooseAB_zero_iff (a b : gmap string string) (key : string) :
  chooseAB a b key = 0 <-> a !! key = b !! key.
Proof.
  unfold chooseAB, map_get.
  destruct (a !! key) as [va|], (b !! key) as [vb|]; simpl;
    try (split; [discriminate|discriminate]); [|split; reflexivity].
  destruct (String.eqb_spec va vb) as [->|Hne]; [split; reflexivity|].
  split; [|congruence].
  destruct (String.ltb va vb); discriminate.
Qed.

(** X2: the preference of [chooseAB] is transitive: when it puts [a]
    before [b] and [b] before [c] on a key, it puts [a] before [c]. *)
Theorem chooseAB_trans (a b c : gmap string string) (key : string) :
  chooseAB a b key < 0 -> chooseAB b c key < 0 -> chooseAB a c key < 0.
Proof.
  unfold chooseAB, map_get.
  destruct (a !! key) as [va|], (b !! key) as [vb|], (c !! key) as [vc|]; simpl;
    try lia.
  destruct (String.eqb_spec va vb) as [->|Hab]; [lia|].
  destruct (String.ltb va vb) eqn:Lab; [|lia].
  destruct (String.eqb_spec vb vc) as [->|Hbc]; [lia|].
  destruct (String.ltb vb vc) eqn:Lbc; [|lia].
  intros _ _. pose proof (string_ltb_trans _ _ _ Lab Lbc) as Lac.
  destruct (String.eqb_spec va vc) as [->|Hac].
  - rewrite string_ltb_irrefl in Lac. discriminate.
  - rewrite Lac. lia.
Qed.

Lemma chooseAB_trans_witness :
  let a : gmap string string := {[ "ID" := "x1" ]} in
  let b : gmap string string := {[ "ID" := "x2" ]} in
  let c : gmap string string := ∅ in
  chooseAB a b "ID" < 0 /\ chooseAB b c "ID" < 0 /\ chooseAB a c "ID" < 0.
Proof.
  cbv zeta.
  split; [vm_compute; reflexivity|]. split; [vm_compute; reflexivity|].
  apply (chooseAB_trans {[ "ID" := "x1" ]} {[ "ID" := "x2" ]} ∅ "ID");
    vm_compute; reflexivity.
Defined.

(** ** More on the directive merge *)

Lemma no_match_false (Compare : Directive -> Directive -> bool)
    (d2 : Directive) (f1drs : list Directive) :
  (exists d1, d1 ∈ f1drs /\ Compare d2 d1 = true) ->
  forallb (fun d1 => negb (Compare d2 d1)) f1drs = false.
Proof.
  intros (d1 & Hin & Hc). induction f1drs as [|d f1drs IH]; simpl.
  - apply elem_of_nil in Hin. contradiction.
  - apply elem_of_cons in Hin as [<-|Hin].
    + rewrite Hc. reflexivity.
    + rewrite (IH Hin). apply andb_false_r.
Qed.

(** X3: a source whose every directive is matched by some directive of
    the master adds nothing: the merge returns the master's directives.
    With a reflexive [Compare], merging a file's directives with
    themselves returns them once. *)
Theorem merge_directives_absorbs (Compare : Directive -> Directive -> bool)
    (f1drs f2drs : list Directive) :
  (forall d2, d2 ∈ f2drs -> exists d1, d1 ∈ f1drs /\ Compare d2 d1 = true) ->
  merge_directives Compare f1drs f2drs = f1drs.
Proof.
  intros Hall. unfold merge_directives. rewrite outer_loop_filter.
  cbn [app]. rewrite <- (app_nil_r f1drs) at 2. f_equal.
  induction f2drs as [|d2 rest IH]; simpl; [reflexivity|].
  rewrite (no_match_false Compare d2 f1drs).
  - apply IH. intros d Hd. apply Hall. apply elem_of_cons. right. exact Hd.
  - apply Hall. apply elem_of_cons. left. reflexivity.
Qed.

Lemma merge_directives_absorbs_witness :
  let d := {| Content := "account Assets"; FoundBefore := 5 |} in
  let d' := {| Content := "account Assets"; FoundBefore := 0 |} in
  merge_directives Compare_content [d] [d'; d] = [d].
Proof.
  cbv zeta.
  apply (merge_directives_absorbs Compare_content
           [{| Content := "account Assets"; FoundBefore := 5 |}]).
  intros d2 Hd. exists {| Content := "account Assets"; FoundBefore := 5 |}.
  split; [apply elem_of_cons; left; reflexivity|].
  apply elem_of_cons in Hd as [->|Hd]; [reflexivity|].
  apply list_elem_of_singleton in Hd. subst d2. reflexivity.
Defined.

(** X4: with no directive in the master the merge returns the source's
    directives as they are, repeated ones included: the directives of
    the source are never compared with each other. With no directive in
    the source it returns the master's. *)
Theorem merge_directives_empty_side (Compare : Directive -> Directive -> bool)
    (drs : list Directive) :
  merge_directives Compare [] drs = drs
  /\ merge_directives Compare drs [] = drs.
Proof.
  unfold merge_directives. rewrite !outer_loop_filter. split.
  - cbn [app forallb]. induction drs as [|d drs IH]; simpl; [reflexivity|].
    f_equal. exact IH.
  - cbn [app List.filter]. apply app_nil_r.
Qed.

(** X5: whatever the program hands to the serializer is the result of a
    merge of the transactions that succeeded, together with the master's
    directives, in their order and with the provenance they were parsed
    with, followed by the unmatched directives of the source. *)
Theorem written_ledger (Compare : Directive -> Directive -> bool)
    (env : environment) (dest : string)
    (f1trs : list Transaction) (f1drs : list Directive)
    (f2trs : list Transaction) (f2drs : list Directive)
    (trs : list Transaction) (drs : list Directive) :
  WriteLedgerFile trs drs ∈ main Compare env dest f1trs f1drs f2trs f2drs ->
  merge_transactions f1trs f2trs = Ok trs
  /\ create_err env = None
  /\ drs = f1drs ++ List.filter
                      (fun d2 => forallb (fun d1 => negb (Compare d2 d1)) f1drs) f2drs
  /\ take (length f1drs) drs = f1drs.
Proof.
  unfold main, finish. cbv zeta. rewrite reset_loop_same.
  unfold merge_directives. rewrite outer_loop_filter. cbn [app].
  intros Hin.
  assert (Hdrs : forall out w,
            WriteLedgerFile trs drs = WriteLedgerFile out w -> trs = out /\ drs = w)
    by (intros out w [= -> ->]; auto).
  destruct (merge_transactions f1trs f2trs) as [out| |msg|].
  - destruct (create_err env) as [err|].
    { repeat (apply elem_of_cons in Hin as [Hin|Hin]; [discriminate|]).
      apply elem_of_nil in Hin. contradiction. }
    assert (He : WriteLedgerFile trs drs
                 = WriteLedgerFile out
                     (f1drs ++ List.filter
                        (fun d2 => forallb (fun d1 => negb (Compare d2 d1)) f1drs) f2drs)).
    { destruct (write_err env) as [err|];
        apply elem_of_cons in Hin as [Hin|Hin]; try discriminate;
        apply elem_of_cons in Hin as [Hin|Hin]; try exact Hin;
        repeat (apply elem_of_cons in Hin as [Hin|Hin]; [discriminate|]);
        apply elem_of_nil in Hin; contradiction. }
    apply Hdrs in He as [-> ->].
    repeat split. apply take_app_length.
  - apply list_elem_of_singleton in Hin. discriminate.
  - repeat (apply elem_of_cons in Hin as [Hin|Hin]; [discriminate|]).
    apply elem_of_nil in Hin. contradiction.
  - apply elem_of_nil in Hin. contradiction.
Qed.

Lemma written_ledger_witness :
  let d := {| Content := "account Assets"; FoundBefore := 5 |} in
  merge_transactions [tx "B" 1] [tx "B" 1] = Ok [tx "B" 1]
  /\ take (length [d]) [d] = [d].
Proof.
  cbv zeta.
  destruct (written_ledger Compare_content env_ok "out.ledger"
              [tx "B" 1] [{| Content := "account Assets"; FoundBefore := 5 |}]
              [tx "B" 1] [] [tx "B" 1]
              [{| Content := "account Assets"; FoundBefore := 5 |}])
    as (Hm & _ & _ & Ht).
  - vm_compute. apply elem_of_cons. right. apply elem_of_cons. left. reflexivity.
  - split; [exact Hm|exact Ht].
Defined.

(** ** The zipper loop does not depend on which file is the master *)

Lemma key_rule_swap (a b : gmap string string) (key : string) :
  key_rule b a key = opposite (key_rule a b key).
Proof.
  unfold key_rule.
  destruct (a !! key) as [va|], (b !! key) as [vb|]; simpl; try reflexivity.
  rewrite (String.eqb_sym vb va).
  destruct (String.eqb va vb) eqn:Heq; [reflexivity|].
  rewrite (string_ltb_flip va vb Heq).
  destruct (String.ltb va vb); reflexivity.
Qed.

Lemma cascade_swap (a b : gmap string string) (keys : list string) :
  cascade b a keys = opposite (cascade a b keys).
Proof.
  induction keys as [|key keys IH]; simpl; [reflexivity|].
  rewrite key_rule_swap. destruct (key_rule a b key); simpl; auto.
Qed.

Lemma zipper_body_swap (f1trs f2trs : list Transaction) (st : state) :
  zipper_body f2trs f1trs (swap st) = swap_result (zipper_body f1trs f2trs st).
Proof.
  destruct st as [[i1 i2] trs]. unfold zipper_body, swap.
  destruct (index_cases f1trs i1) as [[t1 H1]|H1];
    destruct (index_cases f2trs i2) as [[t2 H2]|H2];
    rewrite ?H1, ?H2;
    try (pose proof (index_Ok_inv _ _ _ H1) as [R1 _]);
    try (pose proof (index_Ok_inv _ _ _ H2) as [R2 _]);
    destruct (Z.leb_spec (len f1trs) i1); destruct (Z.leb_spec (len f2trs) i2);
    try lia; cbn [bind take1 take2 swap_result swap]; try reflexivity.
  destruct (Z.ltb_spec (Date t1) (Date t2)); destruct (Z.ltb_spec (Date t2) (Date t1));
    try lia; cbn [bind take1 take2 swap_result swap]; try reflexivity.
  rewrite !tie_break_cascade, cascade_swap.
  destruct (cascade (KVPairs t1) (KVPairs t2) tie_keys); reflexivity.
Qed.

(** X6: the interleaving of the two tails is the same whichever of the
    two files is taken as the first: the zipper loop run on [f2trs] and
    [f1trs] with the cursors exchanged gives what it gives on [f1trs] and
    [f2trs], output or failure. *)
Theorem zipper_loop_commutes (fuel : nat) (f1trs f2trs : list Transaction)
    (i1 i2 : Z) (trs : list Transaction) :
  zipper_loop fuel f2trs f1trs (i2, i1, trs)
  = zipper_loop fuel f1trs f2trs (i1, i2, trs).
Proof.
  revert i1 i2 trs. induction fuel as [|fuel IH]; intros i1 i2 trs;
    cbn [zipper_loop]; [reflexivity|].
  rewrite (orb_comm (i2 <? len f2trs)).
  destruct ((i1 <? len f1trs) || (i2 <? len f2trs)); [|reflexivity].
  change (i2, i1, trs) with (swap (i1, i2, trs)). rewrite zipper_body_swap.
  destruct (zipper_body f1trs f2trs (i1, i2, trs)) as [[[j1 j2] out]| | |];
    cbn [bind swap_result swap]; try reflexivity.
  apply IH.
Qed.

(** ** When the merge gives up, and when it cannot *)

Lemma key_rule_neither (a b : gmap string string) (key : string) :
  key_rule a b key = Neither <-> a !! key = b !! key.
Proof.
  unfold key_rule.
  destruct (a !! key) as [va|], (b !! key) as [vb|];
    try (split; [discriminate|discriminate]); [|split; reflexivity].
  destruct (String.eqb_spec va vb) as [->|Hne]; [split; reflexivity|].
  split; [|congruence].
  destruct (String.ltb va vb); discriminate.
Qed.

Lemma cascade_neither_inv (a b : gmap string string) (keys : list string) :
  cascade a b keys = Neither -> Forall (fun key => a !! key = b !! key) keys.
Proof.
  induction keys as [|key keys IH]; simpl; [constructor|].
  destruct (key_rule a b key) eqn:Hk; try discriminate.
  intros H. constructor; [apply key_rule_neither; exact Hk|apply IH; exact H].
Qed.

Lemma index_elem_of {A} (s : list A) (i : Z) (x : A) :
  index s i = Ok x -> x ∈ s.
Proof.
  intros H. apply index_Ok_inv in H as [_ H].
  apply list_elem_of_lookup. eauto.
Qed.

(** The pairs on which the zipper loop gives up. *)
Lemma zipper_body_exit (f1trs f2trs : list Transaction) (i1 i2 : Z)
    (trs : list Transaction) (msg : string) :
  zipper_body f1trs f2trs (i1, i2, trs) = Exit msg ->
  exists t1 t2,
    index f1trs i1 = Ok t1 /\ index f2trs i2 = Ok t2 /\ Date t1 = Date t2
    /\ Forall (fun key => KVPairs t1 !! key = KVPairs t2 !! key) tie_keys.
Proof.
  unfold zipper_body.
  destruct (len f1trs <=? i1).
  { destruct (index_cases f2trs i2) as [[t2 H2]|H2]; rewrite H2; cbn; discriminate. }
  destruct (len f2trs <=? i2).
  { destruct (index_cases f1trs i1) as [[t1 H1]|H1]; rewrite H1; cbn; discriminate. }
  destruct (index_cases f1trs i1) as [[t1 H1]|H1]; rewrite H1; cbn [bind];
    [|discriminate].
  destruct (index_cases f2trs i2) as [[t2 H2]|H2]; rewrite H2; cbn [bind];
    [|discriminate].
  destruct (Z.ltb_spec (Date t1) (Date t2)); [cbn; discriminate|].
  destruct (Z.ltb_spec (Date t2) (Date t1)); [cbn; discriminate|].
  rewrite tie_break_cascade.
  destruct (cascade (KVPairs t1) (KVPairs t2) tie_keys) eqn:Hc;
    try (cbn; discriminate).
  intros _. exists t1, t2. repeat split; try lia.
  apply cascade_neither_inv. exact Hc.
Qed.

Lemma zipper_loop_exit_pair (fuel : nat) (f1trs f2trs : list Transaction)
    (i1 i2 : Z) (trs : list Transaction) (msg : string) :
  zipper_loop fuel f1trs f2trs (i1, i2, trs) = Exit msg ->
  exists j1 j2 t1 t2,
    i1 <= j1 /\ i2 <= j2
    /\ index f1trs j1 = Ok t1 /\ index f2trs j2 = Ok t2 /\ Date t1 = Date t2
    /\ Forall (fun key => KVPairs t1 !! key = KVPairs t2 !! key) tie_keys.
Proof.
  revert i1 i2 trs. induction fuel as [|fuel IH]; intros i1 i2 trs;
    cbn [zipper_loop]; [discriminate|].
  destruct ((i1 <? len f1trs) || (i2 <? len f2trs)); [|discriminate].
  pose proof (zipper_body_cases f1trs f2trs i1 i2 trs) as Hcases.
  destruct (zipper_body f1trs f2trs (i1, i2, trs)) as [st'| |m|] eqn:Hb; cbn [bind];
    try discriminate.
  - intros H.
    destruct Hcases as [(t & _ & ->)|(t & _ & ->)];
      apply IH in H as (j1 & j2 & t1 & t2 & Hj1 & Hj2 & Hrest);
      exists j1, j2, t1, t2; (split; [lia|]); (split; [lia|]); exact Hrest.
  - intros _. apply zipper_body_exit in Hb as (t1 & t2 & H1 & H2 & Hd & Hk).
    exists i1, i2, t1, t2. repeat split; try lia; assumption.
Qed.

Lemma index_elem_of_drop {A} (s : list A) (i j : Z) (x : A) :
  i <= j -> index s j = Ok x -> x ∈ drop (Z.to_nat i) s.
Proof.
  intros Hij H. apply index_Ok_inv in H as [Hj H].
  apply list_elem_of_lookup. exists (Z.to_nat j - Z.to_nat i)%nat.
  rewrite lookup_drop, <- H. f_equal. lia.
Qed.

(** The merge, taken apart: the scan, the common run copied from the
    master, and the zipper loop. *)
Lemma merge_transactions_unfold (f1trs f2trs : list Transaction) :
  match find_sync f1trs f2trs with
  | Ok syncPoint =>
      -1 <= syncPoint < len f1trs /\
      match overlap_loop (loop_bound f1trs f2trs) f1trs f2trs
              (syncPoint + 1, 1, take (Z.to_nat (syncPoint + 1)) f1trs) with
      | Ok st' =>
          exists k,
            0 <= k /\ syncPoint + 1 + k <= len f1trs
            /\ st' = (syncPoint + 1 + k, 1 + k,
                      take (Z.to_nat (syncPoint + 1 + k)) f1trs)
            /\ walk_ends f1trs f2trs
                 (syncPoint + 1, 1, take (Z.to_nat (syncPoint + 1)) f1trs) st'
            /\ merge_transactions f1trs f2trs
               = zipper_loop (loop_bound f1trs f2trs) f1trs f2trs st'
      | Panic => merge_transactions f1trs f2trs = Panic
      | Exit _ => False
      | OutOfFuel => False
      end
  | Panic => merge_transactions f1trs f2trs = Panic
  | Exit _ => False
  | OutOfFuel => False
  end.
Proof.
  pose proof (len_nonneg f1trs) as Hl1. pose proof (len_nonneg f2trs) as Hl2.
  assert (Hbound : Z.of_nat (loop_bound f1trs f2trs) = len f1trs + len f2trs + 1)
    by (unfold loop_bound, len; lia).
  unfold merge_transactions.
  pose proof (sync_loop_runs (loop_bound f1trs f2trs) f1trs f2trs (len f1trs - 1)) as Hr.
  destruct (find_sync f1trs f2trs) as [sp| | |] eqn:Hs; unfold find_sync in Hs;
    rewrite Hs in Hr; cbn [bind]; try (apply Hr; lia); [|reflexivity].
  assert (Hle : sp <= len f1trs - 1) by (eapply sync_loop_le; exact Hs).
  assert (Hge : -1 <= sp) by (eapply sync_loop_ge; [|exact Hs]; lia).
  split; [lia|].
  unfold common_run. destruct (Z.eqb_spec sp (len f1trs)); [lia|]. cbv zeta.
  destruct (prefix_loop_spec (loop_bound f1trs f2trs) f1trs sp 0 [])
    as (pre & Hpre & Hpre_eq); [lia|lia|lia|].
  rewrite Hpre. cbn [bind]. simpl in Hpre_eq.
  assert (Hpre_take : pre = take (Z.to_nat (sp + 1)) f1trs).
  { apply (app_inv_tail (drop (Z.to_nat (sp + 1)) f1trs)).
    rewrite take_drop. exact Hpre_eq. }
  subst pre.
  pose proof (overlap_loop_spec (loop_bound f1trs f2trs) f1trs f2trs (sp + 1) 1
                (take (Z.to_nat (sp + 1)) f1trs)) as Hw.
  destruct (overlap_loop _ f1trs f2trs (sp + 1, 1, take (Z.to_nat (sp + 1)) f1trs))
    as [[[j1 j2] mid]| | |]; cbn [bind]; try (apply Hw; lia); [|reflexivity].
  specialize (Hw ltac:(lia)).
  pose proof Hw as (k & Hk & -> & -> & Hmid & _ & Hl & _).
  exists k. repeat split; try lia; [|exact Hw].
  f_equal. apply (app_inv_tail (drop (Z.to_nat (sp + 1 + k)) f1trs)).
  rewrite Hmid, !take_drop. reflexivity.
Qed.

(** X7: the only error the merge of the transactions ever reports is the
    one of line 178, and then the two files hold two transactions of the
    same date on which "ID", "RID" and "FITID" are set alike (or not at
    all). "No sync point found!" is printed on no input. *)
Theorem merge_exit_cause (f1trs f2trs : list Transaction) (msg : string) :
  merge_transactions f1trs f2trs = Exit msg ->
  msg = unorderable_msg
  /\ msg <> no_sync_msg
  /\ exists t1 t2,
       t1 ∈ f1trs /\ t2 ∈ f2trs /\ Date t1 = Date t2
       /\ Forall (fun key => KVPairs t1 !! key = KVPairs t2 !! key) tie_keys.
Proof.
  intros Hm. pose proof (merge_transactions_unfold f1trs f2trs) as Hu.
  destruct (find_sync f1trs f2trs) as [sp| | |]; try contradiction;
    [|rewrite Hu in Hm; discriminate].
  destruct Hu as [_ Hu].
  destruct (overlap_loop _ f1trs f2trs _) as [st'| | |]; try contradiction;
    [|rewrite Hu in Hm; discriminate].
  destruct Hu as (k & _ & _ & -> & _ & Hz). rewrite Hz in Hm.
  pose proof (zipper_loop_exit _ _ _ _ _ Hm) as ->.
  split; [reflexivity|]. split; [discriminate|].
  apply zipper_loop_exit_pair in Hm as (j1 & j2 & t1 & t2 & _ & _ & H1 & H2 & Hd & Hk).
  exists t1, t2.
  split; [exact (index_elem_of _ _ _ H1)|].
  split; [exact (index_elem_of _ _ _ H2)|]. split; assumption.
Qed.

Lemma merge_exit_cause_witness :
  let f1trs := [tx "A" 1; tx "B" 2; tx "C" 3] in
  let f2trs := [tx "B" 2; tx "D" 3] in
  merge_transactions f1trs f2trs = Exit unorderable_msg
  /\ exists t1 t2,
       t1 ∈ f1trs /\ t2 ∈ f2trs /\ Date t1 = Date t2
       /\ Forall (fun key => KVPairs t1 !! key = KVPairs t2 !! key) tie_keys.
Proof.
  cbv zeta. split; [vm_compute; reflexivity|].
  apply (merge_exit_cause [tx "A" 1; tx "B" 2; tx "C" 3] [tx "B" 2; tx "D" 3]
           unorderable_msg).
  vm_compute. reflexivity.
Defined.

(** X8: when, of the transactions left after the common run, any two of
    the same date, one from each file, differ on one of "ID", "RID",
    "FITID", the merge reports no error: unique transaction IDs are
    enough for the zipper to order the tails. *)
Theorem told_apart_no_exit (f1trs f2trs : list Transaction) (syncPoint i1 i2 : Z)
    (mid : list Transaction) (msg : string) :
  find_sync f1trs f2trs = Ok syncPoint ->
  common_run f1trs f2trs syncPoint = Ok (i1, i2, mid) ->
  (forall t1 t2,
     t1 ∈ drop (Z.to_nat i1) f1trs -> t2 ∈ drop (Z.to_nat i2) f2trs ->
     Date t1 = Date t2 -> told_apart t1 t2) ->
  merge_transactions f1trs f2trs <> Exit msg.
Proof.
  intros Hs Hc Hapart Hm. unfold merge_transactions in Hm.
  rewrite Hs in Hm. cbn [bind] in Hm. rewrite Hc in Hm. cbn [bind] in Hm.
  apply zipper_loop_exit_pair in Hm as (j1 & j2 & t1 & t2 & Hj1 & Hj2 & H1 & H2 & Hd & Hsame).
  specialize (Hapart t1 t2 (index_elem_of_drop _ _ _ _ Hj1 H1)
                (index_elem_of_drop _ _ _ _ Hj2 H2) Hd).
  unfold told_apart in Hapart.
  apply Exists_exists in Hapart as (key & Hkey & Hne).
  rewrite Forall_forall in Hsame. apply Hne, Hsame, Hkey.
Qed.

Lemma told_apart_no_exit_witness :
  let f1trs := [tx "A" 1; tx "B" 2; txk "C" 3 "ID" "x1"] in
  let f2trs := [tx "B" 2; txk "D" 3 "ID" "x2"] in
  find_sync f1trs f2trs = Ok 1
  /\ common_run f1trs f2trs 1 = Ok (2, 1, [tx "A" 1; tx "B" 2])
  /\ merge_transactions f1trs f2trs <> Exit unorderable_msg.
Proof.
  cbv zeta.
  split; [vm_compute; reflexivity|]. split; [vm_compute; reflexivity|].
  apply (told_apart_no_exit [tx "A" 1; tx "B" 2; txk "C" 3 "ID" "x1"]
           [tx "B" 2; txk "D" 3 "ID" "x2"] 1 2 1 [tx "A" 1; tx "B" 2] unorderable_msg).
  - vm_compute. reflexivity.
  - vm_compute. reflexivity.
  - intros t1 t2 H1 H2 _.
    apply list_elem_of_singleton in H1, H2. subst t1 t2.
    apply Exists_cons. left. vm_compute. discriminate.
Defined.

(** ** When the program crashes *)

Lemma zipper_body_in_range (f1trs f2trs : list Transaction) (i1 i2 : Z)
    (trs : list Transaction) :
  0 <= i1 -> 0 <= i2 ->
  (i1 <? len f1trs) || (i2 <? len f2trs) = true ->
  zipper_body f1trs f2trs (i1, i2, trs) <> Panic.
Proof.
  intros H1 H2 Hc. unfold zipper_body.
  destruct (Z.leb_spec (len f1trs) i1) as [E1|L1].
  { assert (L2 : i2 < len f2trs).
    { apply orb_true_iff in Hc as [H|H]; apply Z.ltb_lt in H; lia. }
    destruct (index_in_range f2trs i2) as (t2 & -> & _); [lia|]. cbn. discriminate. }
  destruct (index_in_range f1trs i1) as (t1 & -> & _); [lia|].
  destruct (Z.leb_spec (len f2trs) i2) as [E2|L2]; [cbn; discriminate|].
  destruct (index_in_range f2trs i2) as (t2 & -> & _); [lia|]. cbn [bind].
  destruct (Date t1 <? Date t2); [cbn; discriminate|].
  destruct (Date t2 <? Date t1); [cbn; discriminate|].
  destruct (tie_break_cases (i1, i2, trs) t1 t2) as [->|[->| ->]]; cbn; discriminate.
Qed.

(** The zipper loop indexes no slice out of range. *)
Lemma zipper_loop_in_range (fuel : nat) (f1trs f2trs : list Transaction)
    (i1 i2 : Z) (trs : list Transaction) :
  0 <= i1 -> 0 <= i2 ->
  zipper_loop fuel f1trs f2trs (i1, i2, trs) <> Panic.
Proof.
  revert i1 i2 trs. induction fuel as [|fuel IH]; intros i1 i2 trs H1 H2;
    cbn [zipper_loop]; [discriminate|].
  destruct ((i1 <? len f1trs) || (i2 <? len f2trs)) eqn:Hc; [|discriminate].
  pose proof (zipper_body_in_range f1trs f2trs i1 i2 trs H1 H2 Hc) as Hnp.
  pose proof (zipper_body_cases f1trs f2trs i1 i2 trs) as Hcases.
  destruct (zipper_body f1trs f2trs (i1, i2, trs)) as [st'| | |]; cbn [bind];
    try discriminate; [|congruence].
  destruct Hcases as [(t & _ & ->)|(t & _ & ->)]; apply IH; lia.
Qed.

Lemma overlap_loop_panic_iff (fuel : nat) (f1trs f2trs : list Transaction)
    (i1 i2 : Z) (trs : list Transaction) :
  0 <= i1 -> 0 <= i2 ->
  Z.max 0 (len f1trs - i1) < Z.of_nat fuel ->
  overlap_loop fuel f1trs f2trs (i1, i2, trs) = Panic
  <-> walk_runs_off f1trs f2trs i1 i2.
Proof.
  revert i1 i2 trs. induction fuel as [|fuel IH]; intros i1 i2 trs H1 H2 Hf; [lia|].
  split.
  - cbn [overlap_loop].
    destruct ((i1 <? len f1trs) || (i2 <? len f2trs)) eqn:Hc; [|discriminate].
    assert (Hc' : i1 < len f1trs \/ i2 < len f2trs).
    { apply orb_true_iff in Hc as [H|H]; apply Z.ltb_lt in H; auto. }
    destruct (index_cases f1trs i1) as [[t1 Ht1]|Hp1]; rewrite ?Ht1, ?Hp1; cbn [bind].
    2: { intros _. exists 0. rewrite !Z.add_0_r. split; [lia|]. split; [intros; lia|].
         destruct (Z_lt_le_dec i1 (len f1trs)) as [Hlt|Hge]; [|left; lia].
         destruct (index_in_range f1trs i1) as (t & Ht & _); [lia|]. congruence. }
    pose proof (index_Ok_inv _ _ _ Ht1) as [R1 _].
    destruct (index_cases f2trs i2) as [[t2 Ht2]|Hp2]; rewrite ?Ht2, ?Hp2; cbn [bind].
    2: { intros _. exists 0. rewrite !Z.add_0_r. split; [lia|]. split; [intros; lia|].
         destruct (Z_lt_le_dec i2 (len f2trs)) as [Hlt|Hge]; [|right; lia].
         destruct (index_in_range f2trs i2) as (t & Ht & _); [lia|]. congruence. }
    destruct (String.eqb_spec (Code t1) (Code t2)) as [Heq|Hne]; cbn [negb];
      [|discriminate].
    intros Hp. apply IH in Hp as (k & Hk & Hcodes & Hend); try lia.
    exists (k + 1). split; [lia|]. split.
    + intros d Hd. destruct (Z.eq_dec d 0) as [->|Hd0].
      * exists t1, t2. rewrite !Z.add_0_r. auto.
      * destruct (Hcodes (d - 1)) as (u1 & u2 & Hu1 & Hu2 & Hu); [lia|].
        exists u1, u2.
        replace (i1 + d) with (i1 + 1 + (d - 1)) by lia.
        replace (i2 + d) with (i2 + 1 + (d - 1)) by lia. auto.
    + replace (i1 + (k + 1)) with (i1 + 1 + k) by lia.
      replace (i2 + (k + 1)) with (i2 + 1 + k) by lia. exact Hend.
  - intros (k & Hk & Hcodes & Hend).
    destruct (Z.eq_dec k 0) as [->|Hk0].
    { apply overlap_loop_one_exhausted. rewrite !Z.add_0_r in Hend. exact Hend. }
    destruct (Hcodes 0) as (t1 & t2 & Ht1 & Ht2 & Hc); [lia|].
    rewrite !Z.add_0_r in Ht1, Ht2.
    pose proof (index_Ok_inv _ _ _ Ht1) as [R1 _].
    cbn [overlap_loop].
    assert (Hcond : (i1 <? len f1trs) || (i2 <? len f2trs) = true).
    { apply orb_true_iff. left. apply Z.ltb_lt. lia. }
    rewrite Hcond, Ht1, Ht2. cbn [bind].
    destruct (String.eqb_spec (Code t1) (Code t2)) as [_|Hne]; [|contradiction].
    cbn [negb]. apply IH; try lia.
    exists (k - 1). split; [lia|]. split.
    + intros d Hd. destruct (Hcodes (d + 1)) as (u1 & u2 & Hu1 & Hu2 & Hu); [lia|].
      exists u1, u2.
      replace (i1 + 1 + d) with (i1 + (d + 1)) by lia.
      replace (i2 + 1 + d) with (i2 + (d + 1)) by lia. auto.
    + replace (i1 + 1 + (k - 1)) with (i1 + k) by lia.
      replace (i2 + 1 + (k - 1)) with (i2 + k) by lia. exact Hend.
Qed.

(** A walk that runs off the end of one file crashes the merge. *)
Lemma walk_off_panics (f1trs f2trs : list Transaction) (syncPoint : Z) :
  find_sync f1trs f2trs = Ok syncPoint ->
  walk_runs_off f1trs f2trs (syncPoint + 1) 1 ->
  merge_transactions f1trs f2trs = Panic.
Proof.
  intros Hs Hoff.
  pose proof (len_nonneg f1trs) as Hl1. pose proof (len_nonneg f2trs) as Hl2.
  assert (Hbound : Z.of_nat (loop_bound f1trs f2trs) = len f1trs + len f2trs + 1)
    by (unfold loop_bound, len; lia).
  pose proof (merge_transactions_unfold f1trs f2trs) as Hu.
  rewrite Hs in Hu. destruct Hu as [Hsp Hu].
  apply (overlap_loop_panic_iff (loop_bound f1trs f2trs) f1trs f2trs
           (syncPoint + 1) 1 (take (Z.to_nat (syncPoint + 1)) f1trs)) in Hoff;
    [|lia|lia|lia].
  rewrite Hoff in Hu. exact Hu.
Qed.

(** X9: the program crashes on an index out of range in exactly two
    cases: the master has transactions and the source has none, or the
    overlap walk, after passing pairs of equal codes, finds one of the
    two files at its end and the other not. The zipper loop never
    crashes. *)
Theorem merge_panic_iff (f1trs f2trs : list Transaction) :
  merge_transactions f1trs f2trs = Panic
  <-> (f1trs <> [] /\ f2trs = [])
      \/ exists syncPoint,
           find_sync f1trs f2trs = Ok syncPoint
           /\ walk_runs_off f1trs f2trs (syncPoint + 1) 1.
Proof.
  pose proof (len_nonneg f1trs) as Hl1. pose proof (len_nonneg f2trs) as Hl2.
  assert (Hbound : Z.of_nat (loop_bound f1trs f2trs) = len f1trs + len f2trs + 1)
    by (unfold loop_bound, len; lia).
  pose proof (merge_transactions_unfold f1trs f2trs) as Hu.
  split.
  - intros Hm. destruct (find_sync f1trs f2trs) as [sp| | |] eqn:Hs; try contradiction.
    + right. exists sp. split; [reflexivity|]. destruct Hu as [Hsp Hu].
      pose proof (overlap_loop_panic_iff (loop_bound f1trs f2trs) f1trs f2trs
                    (sp + 1) 1 (take (Z.to_nat (sp + 1)) f1trs)) as Hiff.
      destruct (overlap_loop _ f1trs f2trs _) as [st'| | |]; try contradiction.
      * destruct Hu as (k & Hk & _ & -> & _ & Hz). rewrite Hz in Hm.
        exfalso. revert Hm. apply zipper_loop_in_range; lia.
      * apply Hiff; [lia|lia|lia|reflexivity].
    + left. destruct f1trs as [|t1 f1trs].
      * rewrite find_sync_empty_master in Hs. discriminate.
      * split; [discriminate|]. destruct f2trs as [|t2 f2trs]; [reflexivity|].
        destruct (find_sync_spec (t1 :: f1trs) t2 f2trs) as (r & Hr & _).
        rewrite Hr in Hs. discriminate.
  - intros [[Hne ->]|(sp & Hs & Hoff)].
    + destruct f1trs as [|t1 f1trs]; [contradiction|].
      unfold merge_transactions. rewrite find_sync_empty_source. reflexivity.
    + exact (walk_off_panics f1trs f2trs sp Hs Hoff).
Qed.

(** ** Where the scan ends *)

Lemma index_lookup {A} (s : list A) (n : nat) (x : A) :
  s !! n = Some x -> index s (Z.of_nat n) = Ok x.
Proof.
  intros H. unfold index.
  destruct (Z.ltb_spec (Z.of_nat n) 0); [lia|].
  rewrite Nat2Z.id, H. reflexivity.
Qed.

(** X10: with a source that has a first transaction, the scan ends on
    the last transaction of the master that has the code of the source's
    first transaction, or on -1 when the master has none. *)
Theorem sync_point_last_match (f1trs : list Transaction) (t2 : Transaction)
    (rest : list Transaction) :
  exists syncPoint,
    find_sync f1trs (t2 :: rest) = Ok syncPoint
    /\ ((syncPoint = -1 /\ Forall (fun t1 => Code t1 <> Code t2) f1trs)
        \/ (0 <= syncPoint
            /\ exists t1, f1trs !! Z.to_nat syncPoint = Some t1
                          /\ Code t1 = Code t2
                          /\ Forall (fun t => Code t <> Code t2)
                               (drop (S (Z.to_nat syncPoint)) f1trs))).
Proof.
  destruct (find_sync_spec f1trs t2 rest) as (r & Hr & Hb & Hhit & Hmiss).
  exists r. split; [exact Hr|].
  destruct (Z_lt_le_dec r 0) as [Hneg|Hpos].
  - left. split; [lia|]. apply Forall_lookup. intros n t Hn.
    apply (Hmiss (Z.of_nat n)); [lia|]. apply index_lookup. exact Hn.
  - right. split; [exact Hpos|].
    destruct (Hhit Hpos) as (t1 & Ht1 & Hc). exists t1.
    apply index_Ok_inv in Ht1 as [_ Ht1]. split; [exact Ht1|]. split; [exact Hc|].
    apply Forall_lookup. intros n t Hn. rewrite lookup_drop in Hn.
    apply (Hmiss (Z.of_nat (S (Z.to_nat r) + n))); [lia|].
    apply index_lookup. exact Hn.
Qed.

(** The scan ends on a transaction of the master that has the code of
    the source's first, when no later one has it. *)
Lemma find_sync_at (pre post : list Transaction) (t1 t2 : Transaction)
    (rest : list Transaction) :
  Code t1 = Code t2 ->
  Forall (fun t => Code t <> Code t2) post ->
  find_sync (pre ++ t1 :: post) (t2 :: rest) = Ok (len pre).
Proof.
  intros Hc Hpost.
  destruct (find_sync_spec (pre ++ t1 :: post) t2 rest) as (r & Hr & Hb & Hhit & Hmiss).
  rewrite Hr. f_equal.
  assert (Hat : index (pre ++ t1 :: post) (len pre) = Ok t1).
  { unfold len. apply index_lookup. apply list_lookup_middle. reflexivity. }
  destruct (Z_lt_le_dec r (len pre)) as [Hlt|Hge].
  { exfalso. apply (Hmiss (len pre) t1); [lia|exact Hat|exact Hc]. }
  destruct (Z.eq_dec r (len pre)) as [Heq|Hne]; [exact Heq|].
  exfalso. destruct Hhit as (t & Ht & Htc); [unfold len in *; lia|].
  apply index_Ok_inv in Ht as [_ Ht]. unfold len in *.
  rewrite lookup_app_r in Ht by lia.
  replace (Z.to_nat r - length pre)%nat with (S (Z.to_nat r - length pre - 1)) in Ht by lia.
  cbn [lookup list_lookup] in Ht.
  rewrite Forall_lookup in Hpost. exact (Hpost _ _ Ht Htc).
Qed.

(** X11: a master that ends on the sync point cannot be extended: when
    the last transaction of the master has the code of the first
    transaction of the source and the source has further transactions,
    the program crashes. *)
Theorem source_outruns_master (pre : list Transaction) (t1 t2 u : Transaction)
    (rest : list Transaction) :
  Code t1 = Code t2 ->
  merge_transactions (pre ++ [t1]) (t2 :: u :: rest) = Panic.
Proof.
  intros Hc. apply master_ends_on_sync_point.
  - rewrite (find_sync_at pre [] t1 t2 (u :: rest) Hc); [|constructor].
    f_equal. unfold len. rewrite length_app. simpl. lia.
  - unfold len. simpl. lia.
Qed.

Lemma source_outruns_master_witness :
  Code (tx "B" 2) = Code (tx "B" 7)
  /\ merge_transactions ([tx "A" 1] ++ [tx "B" 2]) [tx "B" 7; tx "C" 3; tx "D" 4] = Panic.
Proof.
  split; [reflexivity|].
  apply (source_outruns_master [tx "A" 1] (tx "B" 2) (tx "B" 7) (tx "C" 3) [tx "D" 4]).
  reflexivity.
Defined.

(** X12: a source of one transaction only is accepted only at the end of
    the master: when the master goes on after the sync point, the
    program crashes. *)
Theorem master_outruns_source (pre post : list Transaction) (t1 t2 u : Transaction) :
  Code t1 = Code t2 ->
  Forall (fun t => Code t <> Code t2) (u :: post) ->
  merge_transactions (pre ++ t1 :: u :: post) [t2] = Panic.
Proof.
  intros Hc Hpost. apply (walk_off_panics _ _ (len pre)).
  { apply find_sync_at; assumption. }
  exists 0. split; [lia|]. split; [intros; lia|]. right.
  unfold len. rewrite length_app. simpl. lia.
Qed.

Lemma master_outruns_source_witness :
  Code (tx "B" 2) = Code (tx "B" 2)
  /\ Forall (fun t => Code t <> Code (tx "B" 2)) [tx "C" 3]
  /\ merge_transactions ([tx "A" 1] ++ [tx "B" 2; tx "C" 3]) [tx "B" 2] = Panic.
Proof.
  assert (H : Forall (fun t => Code t <> Code (tx "B" 2)) [tx "C" 3])
    by (constructor; [discriminate|constructor]).
  split; [reflexivity|]. split; [exact H|].
  apply (master_outruns_source [tx "A" 1] [] (tx "B" 2) (tx "B" 2) (tx "C" 3));
    [reflexivity|exact H].
Defined.

(** ** Inputs on which the merge returns the master *)

Lemma drop_cons_index {A} (s : list A) (i : Z) (x : A) (l : list A) :
  0 <= i -> drop (Z.to_nat i) s = x :: l ->
  index s i = Ok x /\ drop (Z.to_nat (i + 1)) s = l.
Proof.
  intros Hi Hd.
  assert (Hl : s !! Z.to_nat i = Some x).
  { rewrite <- (Nat.add_0_r (Z.to_nat i)), <- lookup_drop, Hd. reflexivity. }
  split.
  - replace i with (Z.of_nat (Z.to_nat i)) by lia. apply index_lookup. exact Hl.
  - replace (Z.to_nat (i + 1)) with (S (Z.to_nat i)) by lia.
    pose proof (drop_S s x (Z.to_nat i) Hl) as Hs. rewrite Hd in Hs.
    injection Hs as <-. reflexivity.
Qed.

(** Over two rests with pairwise equal codes the overlap walk goes to
    the end of both files and copies the master's rest. *)
Lemma overlap_loop_all_match (fuel : nat) (f1trs f2trs : list Transaction)
    (i1 i2 : Z) (trs : list Transaction) :
  0 <= i1 <= len f1trs -> 0 <= i2 <= len f2trs ->
  len f1trs - i1 < Z.of_nat fuel ->
  Forall2 same_code (drop (Z.to_nat i1) f1trs) (drop (Z.to_nat i2) f2trs) ->
  overlap_loop fuel f1trs f2trs (i1, i2, trs)
  = Ok (len f1trs, len f2trs, trs ++ drop (Z.to_nat i1) f1trs).
Proof.
  revert i1 i2 trs. induction fuel as [|fuel IH]; intros i1 i2 trs H1 H2 Hf Hall; [lia|].
  cbn [overlap_loop].
  destruct (drop (Z.to_nat i1) f1trs) as [|t1 l1] eqn:Hd1;
    destruct (drop (Z.to_nat i2) f2trs) as [|t2 l2] eqn:Hd2;
    try (inversion Hall; fail).
  - apply drop_nil_inv in Hd1, Hd2. unfold len in *.
    assert (E1 : i1 = Z.of_nat (length f1trs)) by lia.
    assert (E2 : i2 = Z.of_nat (length f2trs)) by lia.
    rewrite <- E1, <- E2, !Z.ltb_irrefl, app_nil_r. reflexivity.
  - apply drop_cons_index in Hd1 as [Ht1 Hd1]; [|lia].
    apply drop_cons_index in Hd2 as [Ht2 Hd2]; [|lia].
    pose proof (index_Ok_inv _ _ _ Ht1) as [R1 _].
    pose proof (index_Ok_inv _ _ _ Ht2) as [R2 _].
    assert (Hcond : (i1 <? len f1trs) || (i2 <? len f2trs) = true).
    { apply orb_true_iff. left. apply Z.ltb_lt. lia. }
    rewrite Hcond, Ht1, Ht2. cbn [bind].
    apply Forall2_cons in Hall as [Hc Hall]. unfold same_code in Hc.
    destruct (String.eqb_spec (Code t1) (Code t2)) as [_|Hne]; [|contradiction].
    cbn [negb]. rewrite IH; try lia.
    + rewrite Hd1, <- app_assoc. reflexivity.
    + rewrite Hd1, Hd2. exact Hall.
Qed.

(** X13: when the source repeats, code for code, a tail of the master,
    and the code of its first transaction does not come again in it, the
    merge returns the master as it is. In particular a file merged with
    itself is returned unchanged. *)
Theorem merge_tail_of_master (pre tl : list Transaction) (t2 : Transaction)
    (rest : list Transaction) :
  Forall2 same_code tl (t2 :: rest) ->
  Forall (fun u => Code u <> Code t2) rest ->
  merge_transactions (pre ++ tl) (t2 :: rest) = Ok (pre ++ tl).
Proof.
  intros Hall Hrest.
  destruct tl as [|t1 tl]; [inversion Hall|].
  apply Forall2_cons in Hall as [Hc Hall]. unfold same_code in Hc.
  assert (Htl : Forall (fun t => Code t <> Code t2) tl).
  { clear -Hall Hrest. induction Hall as [|x y l l' Hxy _ IH]; [constructor|].
    apply Forall_cons in Hrest as [Hy Hrest].
    constructor; [unfold same_code in Hxy; congruence|apply IH; exact Hrest]. }
  set (f1trs := pre ++ t1 :: tl). set (f2trs := t2 :: rest).
  pose proof (len_nonneg pre) as Hlp. pose proof (len_nonneg tl) as Hlt.
  pose proof (len_nonneg rest) as Hlr.
  assert (Hl1 : len f1trs = len pre + 1 + len tl)
    by (unfold f1trs, len; rewrite length_app; simpl; lia).
  assert (Hl2 : len f2trs = 1 + len rest) by (unfold f2trs, len; simpl; lia).
  assert (Hbound : Z.of_nat (loop_bound f1trs f2trs) = len f1trs + len f2trs + 1)
    by (unfold loop_bound, len; lia).
  pose proof (merge_transactions_unfold f1trs f2trs) as Hu.
  unfold f1trs at 1, f2trs at 1 in Hu.
  rewrite (find_sync_at pre tl t1 t2 rest Hc Htl) in Hu.
  fold f1trs f2trs in Hu. destruct Hu as [_ Hu].
  assert (Hd1 : drop (Z.to_nat (len pre + 1)) f1trs = tl).
  { unfold f1trs, len. replace (Z.to_nat (Z.of_nat (length pre) + 1)) with (length pre + 1)%nat by lia.
    rewrite drop_app_add. reflexivity. }
  rewrite (overlap_loop_all_match (loop_bound f1trs f2trs) f1trs f2trs (len pre + 1) 1) in Hu.
  - destruct Hu as (k & _ & _ & [= Hk1 Hk2 Hmid] & _ & ->).
    unfold loop_bound. cbn [zipper_loop].
    rewrite !Z.ltb_irrefl. cbn [orb]. f_equal.
    rewrite Hd1. unfold f1trs.
    replace (Z.to_nat (len pre + 1)) with (length pre + 1)%nat by (unfold len; lia).
    rewrite <- (take_drop (length pre + 1) (pre ++ t1 :: tl)) at 2.
    f_equal. rewrite drop_app_add. reflexivity.
  - lia.
  - lia.
  - lia.
  - rewrite Hd1. exact Hall.
Qed.

Lemma merge_tail_of_master_witness :
  Forall2 same_code [tx "B" 2; tx "C" 3] [tx "B" 2; tx "C" 3]
  /\ Forall (fun u => Code u <> Code (tx "B" 2)) [tx "C" 3]
  /\ merge_transactions ([tx "A" 1] ++ [tx "B" 2; tx "C" 3]) [tx "B" 2; tx "C" 3]
     = Ok ([tx "A" 1] ++ [tx "B" 2; tx "C" 3]).
Proof.
  assert (H2 : Forall2 same_code [tx "B" 2; tx "C" 3] [tx "B" 2; tx "C" 3])
    by (repeat constructor).
  assert (H : Forall (fun u => Code u <> Code (tx "B" 2)) [tx "C" 3])
    by (constructor; [discriminate|constructor]).
  split; [exact H2|]. split; [exact H|].
  apply (merge_tail_of_master [tx "A" 1] [tx "B" 2; tx "C" 3] (tx "B" 2) [tx "C" 3] H2 H).
Defined.

(** X14: with an empty master no sync point is looked for and nothing of
    the source is merged: a source of at most one transaction gives an
    empty output, and a longer one crashes the program. *)
Theorem merge_empty_master (f2trs : list Transaction) :
  merge_transactions [] f2trs = if len f2trs <=? 1 then Ok [] else Panic.
Proof.
  destruct f2trs as [|t [|u rest]]; [reflexivity|reflexivity|].
  assert (Hlen : (len (t :: u :: rest) <=? 1) = false).
  { apply Z.leb_gt. unfold len. simpl length. lia. }
  rewrite Hlen. apply (walk_off_panics _ _ (-1)); [reflexivity|].
  exists 0. split; [lia|]. split; [intros; lia|]. left.
  unfold len. simpl length. lia.
Qed.

(** ** The shape of the output *)

(** One turn of the zipper loop takes a transaction that is dated no
    later than the one under the other cursor. *)
Lemma zipper_body_takes_earliest (f1trs f2trs : list Transaction) (i1 i2 : Z)
    (trs : list Transaction) (st' : state) :
  zipper_body f1trs f2trs (i1, i2, trs) = Ok st' ->
  (exists t1, index f1trs i1 = Ok t1 /\ st' = (i1 + 1, i2, trs ++ [t1])
              /\ (len f2trs <= i2
                  \/ exists t2, index f2trs i2 = Ok t2 /\ Date t1 <= Date t2))
  \/ (exists t2, index f2trs i2 = Ok t2 /\ st' = (i1, i2 + 1, trs ++ [t2])
                 /\ (len f1trs <= i1
                     \/ exists t1, index f1trs i1 = Ok t1 /\ Date t2 <= Date t1)).
Proof.
  unfold zipper_body.
  destruct (Z.leb_spec (len f1trs) i1) as [E1|L1].
  { destruct (index_cases f2trs i2) as [[t2 H2]|H2]; rewrite H2; cbn; [|discriminate].
    intros [= <-]. right. exists t2. auto. }
  destruct (Z.leb_spec (len f2trs) i2) as [E2|L2].
  { destruct (index_cases f1trs i1) as [[t1 H1]|H1]; rewrite H1; cbn; [|discriminate].
    intros [= <-]. left. exists t1. auto. }
  destruct (index_cases f1trs i1) as [[t1 H1]|H1]; rewrite H1; cbn [bind];
    [|discriminate].
  destruct (index_cases f2trs i2) as [[t2 H2]|H2]; rewrite H2; cbn [bind];
    [|discriminate].
  destruct (Z.ltb_spec (Date t1) (Date t2)).
  { cbn. intros [= <-]. left. exists t1. repeat split; auto. right. exists t2. split; [auto|lia]. }
  destruct (Z.ltb_spec (Date t2) (Date t1)).
  { cbn. intros [= <-]. right. exists t2. repeat split; auto. right. exists t1. split; [auto|lia]. }
  destruct (tie_break_cases (i1, i2, trs) t1 t2) as [->|[->| ->]]; cbn;
    [| |discriminate]; intros [= <-].
  - left. exists t1. repeat split; auto. right. exists t2. split; [auto|lia].
  - right. exists t2. repeat split; auto. right. exists t1. split; [auto|lia].
Qed.

Lemma not_after_rest (t : Transaction) (s : list Transaction) (i : Z) :
  chronological (drop (Z.to_nat i) s) ->
  (len s <= i \/ exists u, index s i = Ok u /\ Date t <= Date u) ->
  Forall (not_after t) (drop (Z.to_nat i) s).
Proof.
  intros Hs [Hend|(u & Hu & Hle)].
  - rewrite drop_ge; [constructor|unfold len in Hend; lia].
  - rewrite (index_drop _ _ _ Hu) in *.
    apply StronglySorted_inv in Hs as [_ Hs]. constructor; [exact Hle|].
    eapply Forall_impl; [exact Hs|]. unfold not_after. intros; lia.
Qed.

(** What the zipper loop appends is an interleaving of the two rests:
    each rest is in it in its own order, and it holds nothing else; it
    is in chronological order when the two rests are. *)
Lemma zipper_loop_interleaves (fuel : nat) (f1trs f2trs : list Transaction)
    (i1 i2 : Z) (trs out : list Transaction) :
  zipper_loop fuel f1trs f2trs (i1, i2, trs) = Ok out ->
  exists tail,
    out = trs ++ tail
    /\ drop (Z.to_nat i1) f1trs `sublist_of` tail
    /\ drop (Z.to_nat i2) f2trs `sublist_of` tail
    /\ tail ≡ₚ drop (Z.to_nat i1) f1trs ++ drop (Z.to_nat i2) f2trs
    /\ (chronological (drop (Z.to_nat i1) f1trs) ->
        chronological (drop (Z.to_nat i2) f2trs) ->
        chronological tail).
Proof.
  revert i1 i2 trs. induction fuel as [|fuel IH]; intros i1 i2 trs;
    cbn [zipper_loop]; [discriminate|].
  destruct ((i1 <? len f1trs) || (i2 <? len f2trs)) eqn:Hc.
  - destruct (zipper_body f1trs f2trs (i1, i2, trs)) as [st'| | |] eqn:Hb; cbn [bind];
      try discriminate.
    apply zipper_body_takes_earliest in Hb
      as [(t1 & Ht1 & -> & Hother)|(t2 & Ht2 & -> & Hother)];
      intros H; apply IH in H as (tail & -> & Hs1 & Hs2 & Hp & Hchr).
    + exists (t1 :: tail). rewrite (index_drop _ _ _ Ht1), <- app_assoc.
      split; [reflexivity|]. split; [apply sublist_skip; exact Hs1|].
      split; [apply sublist_cons; exact Hs2|].
      split; [simpl; apply Permutation_skip; exact Hp|].
      intros C1 C2. pose proof (not_after_rest t1 f2trs i2 C2 Hother) as Hb2.
      apply StronglySorted_inv in C1 as [C1 Ha1].
      constructor; [exact (Hchr C1 C2)|].
      rewrite Hp. apply Forall_app. split; assumption.
    + exists (t2 :: tail). rewrite (index_drop _ _ _ Ht2), <- app_assoc.
      split; [reflexivity|]. split; [apply sublist_cons; exact Hs1|].
      split; [apply sublist_skip; exact Hs2|].
      split; [rewrite Hp; apply Permutation_middle|].
      intros C1 C2. pose proof (not_after_rest t2 f1trs i1 C1 Hother) as Ha1.
      apply StronglySorted_inv in C2 as [C2 Hb2].
      constructor; [exact (Hchr C1 C2)|].
      rewrite Hp. apply Forall_app. split; assumption.
  - apply orb_false_iff in Hc as [H1 H2]. apply Z.ltb_ge in H1, H2.
    intros [= ->]. exists []. unfold len in *.
    rewrite !drop_ge, app_nil_r by lia.
    repeat split; try reflexivity. intros _ _. constructor.
Qed.

(** X15: a successful merge starts with a prefix of the master and goes
    on with an interleaving of the rest of the master and of the source
    less its first transactions: the output holds every transaction of
    the master, in the order of the master, and it takes at least the
    first transaction of the source from the master or not at all. *)
Theorem merge_interleaves (f1trs f2trs out : list Transaction) :
  merge_transactions f1trs f2trs = Ok out ->
  exists (n m : nat) (tail : list Transaction),
    (1 <= m)%nat
    /\ out = take n f1trs ++ tail
    /\ drop n f1trs `sublist_of` tail
    /\ drop m f2trs `sublist_of` tail
    /\ tail ≡ₚ drop n f1trs ++ drop m f2trs
    /\ f1trs `sublist_of` out.
Proof.
  intros Hm. pose proof (merge_transactions_unfold f1trs f2trs) as Hu.
  destruct (find_sync f1trs f2trs) as [sp| | |]; try contradiction;
    [|rewrite Hu in Hm; discriminate].
  destruct Hu as [Hsp Hu].
  destruct (overlap_loop _ f1trs f2trs _) as [st'| | |]; try contradiction;
    [|rewrite Hu in Hm; discriminate].
  destruct Hu as (k & Hk & _ & -> & _ & Hz). rewrite Hz in Hm.
  apply zipper_loop_interleaves in Hm as (tail & -> & Hs1 & Hs2 & Hp & _).
  exists (Z.to_nat (sp + 1 + k)), (Z.to_nat (1 + k)), tail.
  repeat split; try assumption; [lia|].
  rewrite <- (take_drop (Z.to_nat (sp + 1 + k)) f1trs) at 1.
  apply sublist_app; [reflexivity|exact Hs1].
Qed.

Lemma merge_interleaves_witness :
  let f1trs := [tx "A" 1; tx "B" 2; tx "C" 3] in
  let f2trs := [tx "B" 2; tx "D" 4] in
  let out := [tx "A" 1; tx "B" 2; tx "C" 3; tx "D" 4] in
  merge_transactions f1trs f2trs = Ok out
  /\ exists (n m : nat) (tail : list Transaction),
       (1 <= m)%nat
       /\ out = take n f1trs ++ tail
       /\ drop n f1trs `sublist_of` tail
       /\ drop m f2trs `sublist_of` tail
       /\ tail ≡ₚ drop n f1trs ++ drop m f2trs
       /\ f1trs `sublist_of` out.
Proof.
  cbv zeta. split; [vm_compute; reflexivity|].
  apply (merge_interleaves [tx "A" 1; tx "B" 2; tx "C" 3] [tx "B" 2; tx "D" 4]).
  vm_compute. reflexivity.
Defined.

(** ** Chronological order *)

Lemma chronological_around (s : list Transaction) (i : Z) (t : Transaction) :
  chronological s -> index s i = Ok t ->
  Forall (fun x => not_after x t) (take (Z.to_nat (i + 1)) s)
  /\ Forall (not_after t) (drop (Z.to_nat (i + 1)) s)
  /\ chronological (drop (Z.to_nat (i + 1)) s).
Proof.
  intros Hs Hi. apply index_Ok_inv in Hi as [Hr Hl].
  replace (Z.to_nat (i + 1)) with (S (Z.to_nat i)) by lia.
  unfold chronological in *.
  rewrite <- (take_drop_middle _ _ _ Hl) in Hs.
  apply StronglySorted_app in Hs as (Hcross & _ & Hrest).
  apply StronglySorted_inv in Hrest as [Hrest Hafter].
  rewrite (take_S_r _ _ _ Hl). repeat split; try assumption.
  apply Forall_app. split.
  - apply Forall_forall. intros x Hx. apply Hcross; [exact Hx|].
    apply elem_of_cons. left. reflexivity.
  - constructor; [unfold not_after; lia|constructor].
Qed.

(** X16: when both files are in chronological order and no transaction
    of the master is dated after a transaction of the source with the
    same code, a merge that finds its sync point and succeeds returns a
    file in chronological order. *)
Theorem merge_chronological (f1trs f2trs : list Transaction) (syncPoint : Z)
    (out : list Transaction) :
  chronological f1trs -> chronological f2trs ->
  (forall t1 t2, t1 ∈ f1trs -> t2 ∈ f2trs -> Code t1 = Code t2 -> Date t1 <= Date t2) ->
  find_sync f1trs f2trs = Ok syncPoint -> 0 <= syncPoint ->
  merge_transactions f1trs f2trs = Ok out ->
  chronological out.
Proof.
  intros C1 C2 Hdates Hs Hge Hm.
  destruct (find_sync_hit _ _ _ Hs Hge) as (_ & h1 & h2 & Hh1 & Hh2 & Hhc).
  pose proof (merge_transactions_unfold f1trs f2trs) as Hu.
  rewrite Hs in Hu. destruct Hu as [Hsp Hu].
  destruct (overlap_loop _ f1trs f2trs _) as [st'| | |]; try contradiction;
    [|rewrite Hu in Hm; discriminate].
  destruct Hu as (k & Hk & _ & -> & Hw & Hz). rewrite Hz in Hm.
  destruct Hw as (k' & _ & Hk1 & _ & _ & Hcodes & _).
  assert (k' = k) by lia. subst k'. clear Hk1.
  apply zipper_loop_interleaves in Hm as (tail & -> & _ & _ & Hp & Hchr).
  assert (Hlast : exists a' b', index f1trs (syncPoint + k) = Ok a'
                                /\ index f2trs k = Ok b' /\ Code a' = Code b').
  { destruct (Z.eq_dec k 0) as [->|Hk0].
    - exists h1, h2. rewrite Z.add_0_r. auto.
    - destruct (Hcodes (k - 1)) as (u1 & u2 & Hu1 & Hu2 & Hu); [lia|].
      exists u1, u2.
      replace (syncPoint + k) with (syncPoint + 1 + (k - 1)) by lia.
      replace k with (1 + (k - 1)) at 2 by lia. auto. }
  destruct Hlast as (a' & b' & Ha' & Hb' & Hc').
  pose proof (Hdates a' b' (index_elem_of _ _ _ Ha') (index_elem_of _ _ _ Hb') Hc') as Hab.
  destruct (chronological_around _ _ _ C1 Ha') as (Hbefore & Hafter1 & Hrest1).
  destruct (chronological_around _ _ _ C2 Hb') as (_ & Hafter2 & Hrest2).
  replace (syncPoint + k + 1) with (syncPoint + 1 + k) in * by lia.
  replace (k + 1) with (1 + k) in * by lia.
  unfold chronological. apply StronglySorted_app. split; [|split].
  - intros x1 x2 Hx1 Hx2.
    rewrite Forall_forall in Hbefore. specialize (Hbefore x1 Hx1).
    rewrite Hp in Hx2. apply elem_of_app in Hx2 as [Hx2|Hx2].
    + rewrite Forall_forall in Hafter1. specialize (Hafter1 x2 Hx2).
      unfold not_after in *. lia.
    + rewrite Forall_forall in Hafter2. specialize (Hafter2 x2 Hx2).
      unfold not_after in *. lia.
  - rewrite <- (take_drop (Z.to_nat (syncPoint + 1 + k)) f1trs) in C1.
    apply StronglySorted_app in C1 as (_ & C1 & _). exact C1.
  - exact (Hchr Hrest1 Hrest2).
Qed.

Lemma merge_chronological_witness :
  let f1trs := [tx "A" 1; tx "B" 2; tx "C" 3; tx "E" 6] in
  let f2trs := [tx "B" 2; tx "D" 4; tx "F" 5] in
  chronological [tx "A" 1; tx "B" 2; tx "C" 3; tx "D" 4; tx "F" 5; tx "E" 6].
Proof.
  cbv zeta.
  assert (S1 : chronological [tx "A" 1; tx "B" 2; tx "C" 3; tx "E" 6]).
  { repeat (constructor; [|repeat (constructor; [unfold not_after; simpl; lia|])]);
      constructor. }
  assert (S2 : chronological [tx "B" 2; tx "D" 4; tx "F" 5]).
  { repeat (constructor; [|repeat (constructor; [unfold not_after; simpl; lia|])]);
      constructor. }
  apply (merge_chronological [tx "A" 1; tx "B" 2; tx "C" 3; tx "E" 6]
           [tx "B" 2; tx "D" 4; tx "F" 5] 1); try assumption.
  - intros t1 t2 H1 H2.
    repeat (apply elem_of_cons in H1 as [->|H1]); try (apply elem_of_nil in H1; contradiction);
      repeat (apply elem_of_cons in H2 as [->|H2]);
      try (apply elem_of_nil in H2; contradiction);
      simpl; intros Hc; try discriminate Hc; lia.
  - vm_compute. reflexivity.
  - lia.
  - vm_compute. reflexivity.
Defined.

(** ** The command line *)

(** X17: the program merges exactly when it is given at least three
    arguments of which the first is none of "help", "-h", "--help": the
    first three arguments are then the destination, the master and the
    source, and further arguments are ignored. In every other case it
    shows the usage text. The tests of line 35 guard every index into
    [os.Args]. *)
Theorem arguments_spec (Args : list string) :
  arguments Args
  = match Args with
    | _ :: dest :: f1 :: f2 :: _ =>
        if String.eqb dest "help" || String.eqb dest "-h" || String.eqb dest "--help"
        then Ok ShowUsage
        else Ok (Merge dest f1 f2)
    | _ => Ok ShowUsage
    end.
Proof.
  destruct Args as [|prog [|dest [|f1 [|f2 rest]]]]; try reflexivity.
  unfold arguments, wants_usage, asks_for_help.
  assert (Hlen : len (prog :: dest :: f1 :: f2 :: rest) = 4 + len rest)
    by (unfold len; simpl length; lia).
  pose proof (len_nonneg rest) as Hr.
  destruct (Z.ltb_spec (len (prog :: dest :: f1 :: f2 :: rest)) 4); [lia|].
  destruct (Z.ltb_spec 1 (len (prog :: dest :: f1 :: f2 :: rest))); [|lia].
  change (index (prog :: dest :: f1 :: f2 :: rest) 1) with (@Ok string dest).
  change (index (prog :: dest :: f1 :: f2 :: rest) 2) with (@Ok string f1).
  change (index (prog :: dest :: f1 :: f2 :: rest) 3) with (@Ok string f2).
  cbn [bind].
  destruct (String.eqb dest "help"); [reflexivity|].
  destruct (String.eqb dest "-h"); [reflexivity|].
  destruct (String.eqb dest "--help"); reflexivity.
Qed.
